(** * MicroTorch: the MicroTensor autograd engine (engine.py)

    A shallow embedding of [src/engine.py], and of the network classes
    of [src/nn.py] on top of it, and proofs about them.

    Python objects live in a heap indexed by allocation order, so that
    object identity is equality of indices; the class attribute
    [MicroTensor._trackGrad] is a field of the program state; the
    [_backward] closures are defunctionalised; and a Python exception is
    an explicit outcome that keeps the state reached when it was raised.

    numpy's [float64] is Rocq's primitive binary64 float.  Arrays are
    zero-dimensional (what [np.asarray] makes of a Python number) or
    two-dimensional (the engine's data model), with numpy's broadcasting
    between them.  Sums are taken from index 0 upwards.

    Python's recursion limit is a parameter of [backward]: the number
    [limit] of nested calls of the local function [traverse] that the
    interpreter still allows when [backward] is called.  A traversal
    that would nest deeper raises [RecursionError] before the seed is
    written.

    A [Layer] is the record of its attributes and a [Sequential] the
    list of its layers; the sample that [np.random.randn] draws is an
    argument of [Layer.__init__].

    The file has the model first (numpy, objects and state, the class
    with its operations and backward rules, [backward], [track_grad],
    the network classes), then the vocabulary of the statements and the
    test scenarios, then the lemmas, and last one section for each
    property proved. *)

From Stdlib Require Import PrimFloat Uint63 ZArith FloatAxioms SpecFloat FloatOps.
From stdpp Require Import base list strings relations pretty.

#[local] Open Scope float_scope.
#[local] Open Scope nat_scope.

(** ** The part of numpy the engine uses *)

Module np.

(** Array shapes: [()] for the zero-dimensional array that
    [np.asarray] makes of a Python number, and [(m, n)] for matrices,
    which is what the engine's data model works on.  Other ranks are
    outside this model. *)
Inductive shape_t :=
| Scalar
| Matrix (m n : nat).

#[export] Instance shape_eq_dec : EqDecision shape_t.
Proof. solve_decision. Defined.

(** An [ndarray] of dtype float64: its shape and its cells.  For a
    matrix only the cells inside the shape are meaningful; for a
    zero-dimensional array the value is the cell at [0 0]. *)
Record ndarray := NdArray { shape : shape_t; cell : nat -> nat -> float }.

Definition nrows (a : ndarray) : nat :=
  match shape a with Scalar => 1 | Matrix m _ => m end.
Definition ncols (a : ndarray) : nat :=
  match shape a with Scalar => 1 | Matrix _ n => n end.

(** [tolist]: the cells inside the shape, row by row. *)
Definition tolist (a : ndarray) : list (list float) :=
  map (fun i => map (fun j => cell a i j) (seq 0 (ncols a))) (seq 0 (nrows a)).

(** [np.array] of a number and of a nested list of rows of width [n]. *)
Definition of_float (x : float) : ndarray := NdArray Scalar (fun _ _ => x).
Definition of_rows (n : nat) (rows : list (list float)) : ndarray :=
  NdArray (Matrix (length rows) n)
          (fun i j => nth j (nth i rows []) 0%float).

(** Two arrays are the same array value when they have the same shape
    and the same cells inside it. *)
Definition same (a b : ndarray) : Prop :=
  shape a = shape b /\
  forall i j, i < nrows a -> j < ncols a -> cell a i j = cell b i j.

(** *** Broadcasting *)

Definition broadcast_dim (m p : nat) : option nat :=
  if m =? p then Some m
  else if m =? 1 then Some p
  else if p =? 1 then Some m
  else None.

Definition broadcast_shapes (s t : shape_t) : option shape_t :=
  match s, t with
  | Scalar, _ => Some t
  | _, Scalar => Some s
  | Matrix m n, Matrix p q =>
      match broadcast_dim m p, broadcast_dim n q with
      | Some r, Some c => Some (Matrix r c)
      | _, _ => None
      end
  end.

(** Reading a cell of an operand stretched to the broadcast shape: an
    axis of length one is read at index 0. *)
Definition bcell (a : ndarray) (i j : nat) : float :=
  cell a (if nrows a =? 1 then 0 else i) (if ncols a =? 1 then 0 else j).

(** A binary ufunc; [None] is numpy's [ValueError] ("operands could not
    be broadcast together"). *)
Definition ufunc2 (f : float -> float -> float) (a b : ndarray) : option ndarray :=
  match broadcast_shapes (shape a) (shape b) with
  | Some s => Some (NdArray s (fun i j => f (bcell a i j) (bcell b i j)))
  | None => None
  end.

Definition add : ndarray -> ndarray -> option ndarray := ufunc2 PrimFloat.add.
Definition multiply : ndarray -> ndarray -> option ndarray := ufunc2 PrimFloat.mul.

(** [a += b] on arrays: the result is written into [a]'s buffer, so
    numpy also raises [ValueError] ("non-broadcastable output operand")
    when the broadcast shape is not [a]'s own shape. *)
Definition iadd (a b : ndarray) : option ndarray :=
  match add a b with
  | Some r => if decide (shape r = shape a) then Some r else None
  | None => None
  end.

(** *** Constructors and elementwise helpers *)

Definition zeros (s : shape_t) : ndarray := NdArray s (fun _ _ => 0%float).
Definition ones (s : shape_t) : ndarray := NdArray s (fun _ _ => 1%float).

(** [a.T] (a zero-dimensional array is its own transpose). *)
Definition T (a : ndarray) : ndarray :=
  match shape a with
  | Scalar => a
  | Matrix m n => NdArray (Matrix n m) (fun i j => cell a j i)
  end.

(** [temp[temp < 0] = 0]. *)
Definition clip_negative (a : ndarray) : ndarray :=
  NdArray (shape a) (fun i j => if (cell a i j <? 0)%float then 0%float else cell a i j).

(** [a > 0], as the float64 array that numpy makes of the boolean mask
    when it is multiplied with a float64 array. *)
Definition positive_mask (a : ndarray) : ndarray :=
  NdArray (shape a) (fun i j => if (0 <? cell a i j)%float then 1%float else 0%float).

(** A Python [int] axis length as a float64 (lengths below 2^63). *)
Definition float_of_nat (n : nat) : float :=
  PrimFloat.of_uint63 (Uint63.of_Z (Z.of_nat n)).

(** [a / n] for a Python int [n]. *)
Definition divide_int (a : ndarray) (n : nat) : ndarray :=
  NdArray (shape a) (fun i j => (cell a i j / float_of_nat n)%float).

(** *** Reductions

    Sums run from index 0 upwards and start from the first term; an
    empty sum is [0.0].  (numpy and BLAS may associate long sums
    differently; for the exactly representable values of the test
    scenarios every order gives the same float.) *)
Fixpoint sum_from (acc : float) (f : nat -> float) (start len : nat) : float :=
  match len with
  | O => acc
  | S len' => sum_from (acc + f start)%float f (S start) len'
  end.

Definition fsum (n : nat) (f : nat -> float) : float :=
  match n with
  | O => 0%float
  | S n' => sum_from (f 0) f 1 n'
  end.

(** [np.sum(a, axis=1, keepdims=True)]; [None] is numpy's [AxisError]
    on a zero-dimensional array. *)
Definition sum_axis1_keepdims (a : ndarray) : option ndarray :=
  match shape a with
  | Scalar => None
  | Matrix m n => Some (NdArray (Matrix m 1) (fun i _ => fsum n (fun k => cell a i k)))
  end.

(** [a @ b] ([np.matmul]); [None] is its [ValueError]: a
    zero-dimensional operand or mismatched inner dimensions. *)
Definition matmul (a b : ndarray) : option ndarray :=
  match shape a, shape b with
  | Matrix m k, Matrix k' n =>
      if decide (k = k')
      then Some (NdArray (Matrix m n)
                   (fun i j => fsum k (fun l => (cell a i l * cell b l j)%float)))
      else None
  | _, _ => None
  end.

(** [np.dot(a, b)]: the matrix product of two matrices, and plain
    multiplication when an operand is zero-dimensional. *)
Definition dot (a b : ndarray) : option ndarray :=
  match shape a, shape b with
  | Matrix _ _, Matrix _ _ => matmul a b
  | _, _ => multiply a b
  end.

End np.

Abbreviation ndarray := np.ndarray.

(** ** Objects, program state and exceptions *)

(** A reference to a [MicroTensor] object.  Objects are never freed and
    are numbered in allocation order, so Python's object identity (what
    [x not in children] compares, as the class defines no [__eq__]) is
    equality of references. *)
Abbreviation ref := nat.

(** The [_backward] attribute: [lambda: None], or one of the five local
    functions [_backward] together with the objects its free variables
    [self], [other] and [out] are bound to. *)
Inductive closure :=
| lambda_None
| add_backward (self other out : ref)
| matmul_backward (self other out : ref)
| mul_backward (self other out : ref)
| relu_backward (self out : ref)
| T_backward (self out : ref).

#[export] Instance closure_eq_dec : EqDecision closure.
Proof. solve_decision. Defined.

Record MicroTensor := mkMicroTensor {
  data : ndarray;
  shape : np.shape_t;
  name : string;
  grad : ndarray;
  _backward : closure;
  _prev : list ref
}.

(** The program state: the heap of [MicroTensor] objects, the class
    attribute [MicroTensor._trackGrad], and [calls], a history variable
    that records which objects' [_backward] the loop of [backward] has
    invoked, in order.  No operation reads [calls]. *)
Record state := mkState {
  heap : list MicroTensor;
  _trackGrad : bool;
  calls : list ref
}.

(** Line 15: [_trackGrad = True], and no object yet. *)
Definition initial_state : state := mkState [] true [].

Inductive exn :=
| ValueError       (* numpy: shapes do not broadcast or do not align *)
| AxisError        (* numpy: axis 1 of a zero-dimensional array *)
| RecursionError   (* [traverse] nests deeper than the interpreter allows *)
| DanglingRef.     (* a reference outside the heap; no Python program has one *)

#[export] Instance exn_eq_dec : EqDecision exn.
Proof. solve_decision. Defined.

(** The outcome of running a piece of code: it returns a value or raises,
    and either way leaves a state behind. *)
Inductive result (A : Type) :=
| Ok (v : A) (s : state)
| Raise (e : exn) (s : state).
Arguments Ok {A} v s.
Arguments Raise {A} e s.

Definition final {A} (r : result A) : state :=
  match r with Ok _ s => s | Raise _ s => s end.

Definition raised {A} (r : result A) : option exn :=
  match r with Ok _ _ => None | Raise e _ => Some e end.

Definition returned {A} (r : result A) : option A :=
  match r with Ok v _ => Some v | Raise _ _ => None end.

Definition M (A : Type) : Type := state -> result A.

Definition ret {A} (v : A) : M A := fun s => Ok v s.

Definition bind {A B} (m : M A) (k : A -> M B) : M B :=
  fun s => match m s with
           | Ok v s' => k v s'
           | Raise e s' => Raise e s'
           end.

Notation "'let*' x ':=' m 'in' k" := (bind m (fun x => k))
  (at level 10, x pattern, m at level 100, k at level 200).
Notation "m ';;' k" := (bind m (fun _ => k))
  (at level 100, k at level 200, right associativity).

Definition raise {A} (e : exn) : M A := fun s => Raise e s.

(** A numpy call that may fail with [e]. *)
Definition np_try {A} (e : exn) (o : option A) : M A :=
  match o with Some v => ret v | None => raise e end.

Definition deref (r : ref) : M MicroTensor :=
  fun s => match heap s !! r with
           | Some t => Ok t s
           | None => Raise DanglingRef s
           end.

Definition read_trackGrad : M bool := fun s => Ok (_trackGrad s) s.

Definition with_grad (t : MicroTensor) (g : ndarray) : MicroTensor :=
  mkMicroTensor (data t) (shape t) (name t) g (_backward t) (_prev t).

Definition with_backward (t : MicroTensor) (c : closure) : MicroTensor :=
  mkMicroTensor (data t) (shape t) (name t) (grad t) c (_prev t).

Definition with_heap (s : state) (h : list MicroTensor) : state :=
  mkState h (_trackGrad s) (calls s).

(** [r.grad = g] *)
Definition set_grad (r : ref) (g : ndarray) : M unit :=
  fun s => match heap s !! r with
           | Some t => Ok tt (with_heap s (<[r := with_grad t g]> (heap s)))
           | None => Raise DanglingRef s
           end.

(** [r._backward = c] *)
Definition set_backward (r : ref) (c : closure) : M unit :=
  fun s => match heap s !! r with
           | Some t => Ok tt (with_heap s (<[r := with_backward t c]> (heap s)))
           | None => Raise DanglingRef s
           end.

Definition log_call (r : ref) : M unit :=
  fun s => Ok tt (mkState (heap s) (_trackGrad s) (calls s ++ [r])).

(** ** The class [MicroTensor] *)

(** Lines 17-23.  [data.astype(float)] is the identity on the float64
    arrays of this model. *)
Definition __init__ (data : ndarray) (name : string) (_children : list ref) : M ref :=
  fun s =>
    Ok (length (heap s))
       (with_heap s
          (heap s ++ [mkMicroTensor data (np.shape data) name
                        (np.zeros (np.shape data)) lambda_None _children])).

(** The right operand of an operator: a [MicroTensor], or anything else,
    which [np.asarray] turns into an array. *)
Inductive operand :=
| Tensor (r : ref)
| Raw (a : ndarray).

(** [other if isinstance(other, MicroTensor) else MicroTensor(np.asarray(other), 'unk')] *)
Definition coerce (other : operand) : M ref :=
  match other with
  | Tensor r => ret r
  | Raw a => __init__ a "unk" []
  end.

(** [self._trackGrad and other._trackGrad]: neither object has an
    attribute of that name, so both reads find the class attribute. *)
Definition both_tracked : M bool :=
  let* a := read_trackGrad in
  let* b := read_trackGrad in
  ret (a && b).

(** Lines 25-34. *)
Definition __add__ (self : ref) (other : operand) : M ref :=
  let* other := coerce other in
  let* s_ := deref self in
  let* o_ := deref other in
  let* d := np_try ValueError (np.add (data s_) (data o_)) in
  let* tracked := both_tracked in
  let* out := __init__ d ("(" +:+ name s_ +:+ "+" +:+ name o_ +:+ ")")
                (if tracked then [self; other] else []) in
  let* tracked' := both_tracked in
  set_backward out (if tracked' then add_backward self other out else lambda_None);;
  ret out.

(** Lines 36-45. *)
Definition __matmul__ (self : ref) (other : operand) : M ref :=
  let* other := coerce other in
  let* s_ := deref self in
  let* o_ := deref other in
  let* d := np_try ValueError (np.dot (data s_) (data o_)) in
  let* tracked := both_tracked in
  let* out := __init__ d (name s_ +:+ "@" +:+ name o_)
                (if tracked then [self; other] else []) in
  let* tracked' := both_tracked in
  set_backward out (if tracked' then matmul_backward self other out else lambda_None);;
  ret out.

(** Lines 47-56. *)
Definition __mul__ (self : ref) (other : operand) : M ref :=
  let* other := coerce other in
  let* s_ := deref self in
  let* o_ := deref other in
  let* d := np_try ValueError (np.multiply (data s_) (data o_)) in
  let* tracked := both_tracked in
  let* out := __init__ d (name s_ +:+ "*" +:+ name o_)
                (if tracked then [self; other] else []) in
  let* tracked' := both_tracked in
  set_backward out (if tracked' then mul_backward self other out else lambda_None);;
  ret out.

(** Lines 58-67. *)
Definition relu (self : ref) : M ref :=
  let* s_ := deref self in
  let temp := np.clip_negative (data s_) in
  let* tracked := read_trackGrad in
  let* out := __init__ temp ("ReLU(" +:+ name s_ +:+ ")")
                (if tracked then [self] else []) in
  let* tracked' := read_trackGrad in
  set_backward out (if tracked' then relu_backward self out else lambda_None);;
  ret out.

(** Lines 69-78, the property [T]. *)
Definition T (self : ref) : M ref :=
  let* s_ := deref self in
  let temp := data s_ in
  let* tracked := read_trackGrad in
  let* out := __init__ (np.T temp) (name s_ +:+ ".T")
                (if tracked then [self] else []) in
  let* tracked' := read_trackGrad in
  set_backward out (if tracked' then T_backward self out else lambda_None);;
  ret out.

(** Lines 80-81: [self * -1]. *)
Definition __neg__ (self : ref) : M ref :=
  __mul__ self (Raw (np.of_float (-1)%float)).

(** Lines 83-85. *)
Definition __radd__ (self : ref) (other : operand) : M ref :=
  let* other := coerce other in
  __add__ other (Tensor self).

(** [-other]: [__neg__] of a [MicroTensor]; otherwise the negation of a
    Python float or of a float64 array, which is what [Raw] holds (the
    negation of a Python int or list is outside this model). *)
Definition negative (a : ndarray) : ndarray :=
  np.NdArray (np.shape a) (fun i j => (- np.cell a i j)%float).

Definition neg_operand (other : operand) : M operand :=
  match other with
  | Tensor r => let* n := __neg__ r in ret (Tensor n)
  | Raw a => ret (Raw (negative a))
  end.

(** Lines 87-88: [self + (-other)]. *)
Definition __sub__ (self : ref) (other : operand) : M ref :=
  let* n := neg_operand other in
  __add__ self n.

(** Lines 90-92. *)
Definition __rsub__ (self : ref) (other : operand) : M ref :=
  let* other := coerce other in
  let* n := __neg__ self in
  __add__ other (Tensor n).

(** Lines 94-96. *)
Definition __rmul__ (self : ref) (other : operand) : M ref :=
  let* other := coerce other in
  __mul__ other (Tensor self).

(** ** The backward rules *)

(** [tgt.grad = tgt.grad + contribution] (line 30-31: a new array, so the
    attribute may change shape) and [tgt.grad += contribution] (the
    other rules: in place). *)
Definition rebind_add (tgt : ref) (contribution : ndarray) : M unit :=
  let* t := deref tgt in
  let* g := np_try ValueError (np.add (grad t) contribution) in
  set_grad tgt g.

Definition inplace_add (tgt : ref) (contribution : ndarray) : M unit :=
  let* t := deref tgt in
  let* g := np_try ValueError (np.iadd (grad t) contribution) in
  set_grad tgt g.

(** [np.sum(out.grad, axis=1, keepdims=True)/out.grad.shape[1]] *)
Definition row_mean (out : ref) : M ndarray :=
  let* o_ := deref out in
  let* r := np_try AxisError (np.sum_axis1_keepdims (grad o_)) in
  ret (np.divide_int r (np.ncols (grad o_))).

(** Calling a [_backward] closure. *)
Definition call (c : closure) : M unit :=
  match c with
  | lambda_None => ret tt
  | add_backward self other out =>
      (* lines 30-31 *)
      let* r := row_mean out in
      rebind_add self r;;
      let* r' := row_mean out in
      rebind_add other r'
  | matmul_backward self other out =>
      (* lines 41-42 *)
      let* o_ := deref out in
      let* ot := deref other in
      let* c1 := np_try ValueError (np.matmul (grad o_) (np.T (data ot))) in
      inplace_add self c1;;
      let* s_ := deref self in
      let* o_ := deref out in
      let* c2 := np_try ValueError (np.matmul (np.T (data s_)) (grad o_)) in
      inplace_add other (np.divide_int c2 (np.nrows (data s_)))
  | mul_backward self other out =>
      (* lines 52-53 *)
      let* ot := deref other in
      let* o_ := deref out in
      let* c1 := np_try ValueError (np.multiply (data ot) (grad o_)) in
      inplace_add self c1;;
      let* s_ := deref self in
      let* o_ := deref out in
      let* c2 := np_try ValueError (np.multiply (data s_) (grad o_)) in
      inplace_add other c2
  | relu_backward self out =>
      (* line 64 *)
      let* o_ := deref out in
      let* c1 := np_try ValueError (np.multiply (np.positive_mask (data o_)) (grad o_)) in
      inplace_add self c1
  | T_backward self out =>
      (* line 75 *)
      let* o_ := deref out in
      inplace_add self (np.T (grad o_))
  end.

(** ** The backward executor (lines 98-108) *)

(** [for p in ps: f(p)] threading the list [children]. *)
Fixpoint for_each (f : ref -> list ref -> option (list ref))
    (ps : list ref) (children : list ref) : option (list ref) :=
  match ps with
  | [] => Some children
  | p :: ps' =>
      match f p children with
      | Some children' => for_each f ps' children'
      | None => None
      end
  end.

(** The local function [traverse] (lines 100-104), with the list
    [children] it appends to passed in and out.  [limit] is the number
    of nested calls that the interpreter still allows: a call made when
    none is left raises [RecursionError], which is the value [None] (as
    is a dangling reference, which no Python program has).  The call is
    made for every parent, listed already or not, and the test
    [x not in children] is the first thing the call does. *)
Fixpoint traverse (limit : nat) (h : list MicroTensor) (x : ref)
    (children : list ref) : option (list ref) :=
  match limit with
  | O => None
  | S limit' =>
      if bool_decide (x ∈ children) then Some children
      else
        match h !! x with
        | None => None
        | Some t =>
            match for_each (traverse limit' h) (_prev t) children with
            | Some children' => Some (children' ++ [x])
            | None => None
            end
        end
  end.

(** [for c in reversed(children): c._backward()] *)
Fixpoint call_each (cs : list ref) : M unit :=
  match cs with
  | [] => ret tt
  | c :: cs' =>
      let* t := deref c in
      log_call c;;
      call (_backward t);;
      call_each cs'
  end.

(** [backward], called when the interpreter allows [limit] more nested
    calls of [traverse]: what Python's recursion limit (1000 frames
    unless it was set) leaves after the frames in use, a call of
    [traverse] taking one frame.  The traversal of line 105 runs first:
    when it exceeds the limit, [RecursionError] leaves [backward] before
    the seed of line 106 is written and before any rule is called. *)
Definition backward (limit : nat) (self : ref) : M unit :=
  fun s =>
    match traverse limit (heap s) self [] with
    | None => Raise RecursionError s
    | Some children =>
        (let* t := deref self in
         set_grad self (np.ones (np.shape (data t)));;
         call_each (rev children)) s
    end.

(** ** The tracking toggle (lines 114-121)

    [with MicroTensor.track_grad(state): body].  The [finally] clause
    runs whether [body] returns or raises. *)
Definition set_trackGrad (b : bool) (s : state) : state :=
  mkState (heap s) b (calls s).

Definition track_grad {A} (st : bool) (body : M A) : M A :=
  fun s =>
    let _prev := _trackGrad s in
    match body (set_trackGrad st s) with
    | Ok v s' => Ok v (set_trackGrad _prev s')
    | Raise e s' => Raise e (set_trackGrad _prev s')
    end.

(** ** Reading a state *)

Definition grad_of (s : state) (r : ref) : option ndarray := grad <$> heap s !! r.
Definition data_of (s : state) (r : ref) : option ndarray := data <$> heap s !! r.
Definition grad_list (s : state) (r : ref) : option (list (list float)) :=
  np.tolist <$> grad_of s r.
Definition data_list (s : state) (r : ref) : option (list (list float)) :=
  np.tolist <$> data_of s r.
Definition grad_shape (s : state) (r : ref) : option np.shape_t :=
  np.shape <$> grad_of s r.
Definition data_shape (s : state) (r : ref) : option np.shape_t :=
  np.shape <$> data_of s r.

(** A user-created leaf: [MicroTensor(np.array(rows), name)]. *)
Definition leaf (n : nat) (rows : list (list float)) (name : string) : M ref :=
  __init__ (np.of_rows n rows) name [].

(** ** Graphs built by the operations *)

(** Every operation allocates its result after its operands, and installs
    a rule other than [lambda: None] only together with the parent tuple
    of the same operands. *)
Definition closure_fits (i : ref) (t : MicroTensor) : Prop :=
  match _backward t with
  | lambda_None => True
  | add_backward a b o | matmul_backward a b o | mul_backward a b o =>
      o = i /\ _prev t = [a; b]
  | relu_backward a o | T_backward a o =>
      o = i /\ _prev t = [a]
  end.

Definition node_wf (i : ref) (t : MicroTensor) : Prop :=
  Forall (fun p => p < i) (_prev t) /\ closure_fits i t.

Definition heap_wf (h : list MicroTensor) : Prop :=
  forall i t, h !! i = Some t -> node_wf i t.

#[export] Instance node_wf_dec i t : Decision (node_wf i t).
Proof.
  unfold node_wf, closure_fits.
  destruct (_backward t); apply _.
Defined.

(** A checker for concrete heaps. *)
Definition heap_wfb (h : list MicroTensor) : bool :=
  forallb (fun it => bool_decide (node_wf (fst it) (snd it))) (imap pair h).

(** The objects a closure writes to. *)
Definition targets (c : closure) : list ref :=
  match c with
  | lambda_None => []
  | add_backward a b _ | matmul_backward a b _ | mul_backward a b _ => [a; b]
  | relu_backward a _ | T_backward a _ => [a]
  end.

(** [y] is reachable from [x] over recorded parent edges. *)
Definition parent_of (h : list MicroTensor) (c p : ref) : Prop :=
  exists t, h !! c = Some t /\ p ∈ _prev t.

Definition reachable (h : list MicroTensor) : ref -> ref -> Prop :=
  rtc (parent_of h).

(** The graph below [x] is at most [d] deep: no chain of recorded
    parents that starts at [x] has more than [d] objects, so that
    [traverse] from [x] never nests deeper than [d] calls. *)
Fixpoint within (d : nat) (h : list MicroTensor) (x : ref) : bool :=
  match d with
  | O => false
  | S d' =>
      match h !! x with
      | None => false
      | Some t => forallb (within d' h) (_prev t)
      end
  end.

(** The list [children] at any moment of the traversal: no object twice,
    and every object after all of its parents. *)
Definition topo (h : list MicroTensor) (ch : list ref) : Prop :=
  NoDup ch /\
  forall l1 c l2 t p,
    ch = l1 ++ c :: l2 -> h !! c = Some t -> p ∈ _prev t -> p ∈ l1.

(** [x] comes before [y] in [l]. *)
Definition before (l : list ref) (x y : ref) : Prop :=
  exists l1 l2 l3, l = l1 ++ x :: l2 ++ y :: l3.

(** Everything of an object but its gradient. *)
Definition skeleton (t : MicroTensor) : MicroTensor :=
  with_grad t (np.zeros np.Scalar).

(** [s'] differs from [s] at most in the [grad] of objects satisfying [P]. *)
Definition grads_changed (P : ref -> Prop) (s s' : state) : Prop :=
  skeleton <$> heap s' = skeleton <$> heap s /\
  _trackGrad s' = _trackGrad s /\
  calls s' = calls s /\
  forall i, ~ P i -> heap s' !! i = heap s !! i.

(** A computation that only assigns gradients of objects satisfying [P],
    and never raises [RecursionError]. *)
Definition grads_only {A} (P : ref -> Prop) (m : M A) : Prop :=
  forall s, grads_changed P s (final (m s)) /\
            raised (m s) <> Some RecursionError.

(** ** Closed forms of the operations' results *)

(** An object as [__init__] makes it, with the rule an operation then
    installs, and the state after its allocation. *)
Definition fresh (d : ndarray) (nm : string) (c : closure) (ps : list ref) : MicroTensor :=
  mkMicroTensor d (np.shape d) nm (np.zeros (np.shape d)) c ps.

Definition alloc (s : state) (t : MicroTensor) : state :=
  with_heap s (heap s ++ [t]).

(** The operand after coercion, with the state in which the operation
    goes on. *)
Definition coerced (other : operand) (s : state) : ref * state :=
  match other with
  | Tensor r => (r, s)
  | Raw a => (length (heap s), alloc s (fresh a "unk" lambda_None []))
  end.

(** What a binary operation does after coercing its operand: [f] is the
    numpy function, [nm] the name and [rule] the closure. *)
Definition binary_result (f : ndarray -> ndarray -> option ndarray)
    (nm : string -> string -> string) (rule : ref -> ref -> ref -> closure)
    (self other : ref) (s : state) : result ref :=
  match heap s !! self, heap s !! other with
  | Some ts, Some to_ =>
      match f (data ts) (data to_) with
      | Some d =>
          Ok (length (heap s))
             (alloc s (fresh d (nm (name ts) (name to_))
                         (if _trackGrad s then rule self other (length (heap s))
                          else lambda_None)
                         (if _trackGrad s then [self; other] else [])))
      | None => Raise ValueError s
      end
  | _, _ => Raise DanglingRef s
  end.

Definition unary_result (f : ndarray -> ndarray)
    (nm : string -> string) (rule : ref -> ref -> closure)
    (self : ref) (s : state) : result ref :=
  match heap s !! self with
  | Some ts =>
      Ok (length (heap s))
         (alloc s (fresh (f (data ts)) (nm (name ts))
                     (if _trackGrad s then rule self (length (heap s)) else lambda_None)
                     (if _trackGrad s then [self] else [])))
  | None => Raise DanglingRef s
  end.

(** ** The operations as one type *)

Inductive operation :=
| Add (self : ref) (other : operand)
| Matmul (self : ref) (other : operand)
| Mul (self : ref) (other : operand)
| Relu (self : ref)
| Transpose (self : ref)
| Neg (self : ref)
| Radd (self : ref) (other : operand)
| Sub (self : ref) (other : operand)
| Rsub (self : ref) (other : operand)
| Rmul (self : ref) (other : operand).

Definition perform (o : operation) : M ref :=
  match o with
  | Add self other => __add__ self other
  | Matmul self other => __matmul__ self other
  | Mul self other => __mul__ self other
  | Relu self => relu self
  | Transpose self => T self
  | Neg self => __neg__ self
  | Radd self other => __radd__ self other
  | Sub self other => __sub__ self other
  | Rsub self other => __rsub__ self other
  | Rmul self other => __rmul__ self other
  end.

(** ** What a program can do to the state *)


(** ** The vocabulary of the statements *)

(** The objects whose [_backward] the pass [backward r] from state [s]
    invoked, in order. *)
Definition invocations (limit : nat) (s : state) (r : ref) : list ref :=
  drop (length (calls s)) (calls (final (backward limit r s))).

(** "Each reachable node's rule is invoked exactly once." *)
Definition invoked_exactly_once (limit : nat) (s : state) (r : ref) : Prop :=
  forall x, reachable (heap s) r x ->
    length (filter (fun y => y = x) (invocations limit s r)) = 1.

(** The forward value of an operation that returned. *)
Definition forward_value (r : result ref) : option ndarray :=
  match r with
  | Ok out s => data_of s out
  | Raise _ _ => None
  end.

(** Two states with the same objects' data, and two outcomes that agree
    on the value or exception and leave such states. *)
Definition same_data (s s' : state) : Prop :=
  data <$> heap s = data <$> heap s'.

Definition agree {A} (r r' : result A) : Prop :=
  match r, r' with
  | Ok v s1, Ok v' s1' => v = v' /\ same_data s1 s1'
  | Raise e _, Raise e' _ => e = e'
  | _, _ => False
  end.

(** The result of an operation carries no graph. *)
Definition untracked (r : result ref) : Prop :=
  match r with
  | Ok out s' =>
      exists t, heap s' !! out = Some t /\ _prev t = [] /\ _backward t = lambda_None
  | Raise _ _ => True
  end.

(** The sum of row [i] of a gradient with [n] columns, divided by [n]. *)
Definition mean_of_row (g : ndarray) (n i : nat) : float :=
  (np.fsum n (fun k => np.cell g i k) / np.float_of_nat n)%float.

(** Cell (i,j) of [G @ B.T] and of [A.T @ G]. *)
Definition grad_times_BT (g b : ndarray) (n i j : nat) : float :=
  np.fsum n (fun l => (np.cell g i l * np.cell b j l)%float).

Definition AT_times_grad (a g : ndarray) (m i j : nat) : float :=
  np.fsum m (fun l => (np.cell a l i * np.cell g l j)%float).

(** [a[i][j]] inside the shape of [a] (the cell of a zero-dimensional
    array is read at [0 0]). *)
Definition item (a : ndarray) (i j : nat) : option float :=
  if (i <? np.nrows a) && (j <? np.ncols a) then Some (np.cell a i j) else None.

Definition data_item (s : state) (r : ref) (i j : nat) : option float :=
  match data_of s r with Some a => item a i j | None => None end.

Definition grad_item (s : state) (r : ref) (i j : nat) : option float :=
  match grad_of s r with Some a => item a i j | None => None end.

(** [np.maximum(x, y)] on float64: [x] when [x >= y] or [x] is NaN. *)
Definition maximum (x y : float) : float :=
  if (y <=? x)%float || PrimFloat.is_nan x then x else y.

(** "[X.grad] is zero wherever [Y.data == 0] and equals the gradient of
    [Y] wherever [Y.data > 0]", in state [s]. *)
Definition relu_masks (s : state) (X Y : ref) : Prop :=
  forall i j y gx gy,
    data_item s Y i j = Some y ->
    grad_item s X i j = Some gx ->
    grad_item s Y i j = Some gy ->
    ((y =? 0)%float = true -> gx = 0%float) /\
    ((0 <? y)%float = true -> gx = gy).

(** A computation that leaves every gradient with the shape it had. *)
Definition keeps_grad_shapes {A} (m : M A) : Prop :=
  forall s i, grad_shape (final (m s)) i = grad_shape s i.

(** ** Test scenarios *)

Definition A22 : list (list float) := [[1; 2]; [3; 4]]%float.
Definition B22 : list (list float) := [[5; 6]; [7; 8]]%float.
Definition A23 : list (list float) := [[1; 2; 3]; [4; 5; 6]]%float.
Definition B32 : list (list float) := [[1; 2]; [3; 4]; [5; 6]]%float.

(** Running [backward] on the object that [build] returns. *)
Definition then_backward (limit : nat) (build : M ref) : M unit :=
  let* c := build in backward limit c.

(** The leaves [A = MicroTensor(np.array([[1,2],[3,4]]), 'A')] and [B]
    likewise: 0 = A, 1 = B. *)
Definition two_leaves : M ref :=
  let* A := leaf 2 A22 "A" in
  leaf 2 B22 "B".

(** The same leaves with tracking switched off. *)
Definition untracked_leaves : state :=
  set_trackGrad false (final (two_leaves initial_state)).

(** [C = A + B]: 0 = A, 1 = B, 2 = C. *)
Definition add_scenario : M ref :=
  let* A := leaf 2 A22 "A" in
  let* B := leaf 2 B22 "B" in
  __add__ A (Tensor B).

(** [C = A - B]: 0 = A, 1 = B, 2 = the coerced [-1], 3 = [-B], 4 = C. *)
Definition sub_scenario : M ref :=
  let* A := leaf 2 A22 "A" in
  let* B := leaf 2 B22 "B" in
  __sub__ A (Tensor B).

(** [C = A + 5]: 0 = A, 1 = the coerced [5], 2 = C. *)
Definition add_scalar_scenario : M ref :=
  let* A := leaf 2 A22 "A" in
  __add__ A (Raw (np.of_float 5)).

(** [A] of shape (2,3), [B] of shape (3,2), [C = A @ B]: 0 = A, 1 = B,
    2 = C. *)
Definition matmul_scenario : M ref :=
  let* A := leaf 3 A23 "A" in
  let* B := leaf 2 B32 "B" in
  __matmul__ A (Tensor B).

(** [X = MicroTensor(np.array([[-1,2]]), 'X')], [Y1 = X.relu()],
    [Y1.backward()], and then [Y = X.relu()]: 0 = X, 1 = Y1, 2 = Y. *)
Definition relu_again_scenario (limit : nat) : M ref :=
  let* X := leaf 2 [[-1; 2]]%float "X" in
  let* Y1 := relu X in
  backward limit Y1;;
  relu X.

(** [with MicroTensor.track_grad(False): C = A + B; A @ [[1,2,3]]]: the
    product of a (2,2) and a (1,3) matrix raises inside the scope. *)
Definition raising_scope : M ref :=
  let* A := leaf 2 A22 "A" in
  let* B := leaf 2 B22 "B" in
  track_grad false
    (let* C := __add__ A (Tensor B) in
     __matmul__ A (Raw (np.of_rows 3 [[1; 2; 3]]%float))).

(** A chain of [n] relus on top of [x]. *)
Fixpoint relu_chain (n : nat) (x : ref) : M ref :=
  match n with
  | O => ret x
  | S n' => let* y := relu x in relu_chain n' y
  end.

(** [X = MicroTensor(np.array([[1]]), 'X')] and [Y], the last of 1000
    relus on top of it: 0 = X, 1000 = Y. *)
Definition deep_scenario : M ref :=
  let* X := leaf 1 [[1]]%float "X" in
  relu_chain 1000 X.

(** [X], the last of 998 relus on top of a leaf, and [X.T.T]:
    998 = X, 999 = X.T, 1000 = X.T.T. *)
Definition below_limit_scenario : M ref :=
  let* X0 := leaf 1 [[1]]%float "X" in
  relu_chain 998 X0.

Definition double_transpose (X : ref) : M ref :=
  let* XT := T X in
  T XT.

(** ** The network classes (nn.py) *)

(** [t.data = d] and [t.name = nm], for [Sequential.__init__]. *)
Definition with_data (t : MicroTensor) (d : ndarray) : MicroTensor :=
  mkMicroTensor d (shape t) (name t) (grad t) (_backward t) (_prev t).

Definition with_name (t : MicroTensor) (nm : string) : MicroTensor :=
  mkMicroTensor (data t) (shape t) nm (grad t) (_backward t) (_prev t).

(** [r.data *= c] for a Python float [c]: every cell is multiplied, in
    the buffer of [r.data]. *)
Definition imul_data (r : ref) (c : float) : M unit :=
  fun s => match heap s !! r with
           | Some t =>
               Ok tt (with_heap s
                        (<[r := with_data t
                                  (np.NdArray (np.shape (data t))
                                     (fun i j => (np.cell (data t) i j * c)%float))]>
                           (heap s)))
           | None => Raise DanglingRef s
           end.

(** [r.name = nm] *)
Definition set_name (r : ref) (nm : string) : M unit :=
  fun s => match heap s !! r with
           | Some t => Ok tt (with_heap s (<[r := with_name t nm]> (heap s)))
           | None => Raise DanglingRef s
           end.

Module nn.


(** [Module.parameters] (lines 10-11). *)
Definition parameters : list ref := [].

Module Layer.

(** A [Layer] object.  Its attributes are assigned in [__init__] and
    never again; [activation] is ['relu'], another string or [None]. *)
Record t := mk {
  dims : nat * nat;
  W : ref;
  b : ref;
  activation : option string
}.

(** Lines 15-19.  [randn] is the sample that [np.random.randn(nin, nout)]
    draws. *)
Definition __init__ (randn : nat -> nat -> float) (nin nout : nat)
    (activation : option string) : M t :=
  let* W := __init__ (np.NdArray (np.Matrix nin nout) randn) "W" [] in
  let* b := __init__ (np.zeros (np.Matrix nout 1)) "b" [] in
  ret (mk (nin, nout) W b activation).

(** Lines 21-24: [self.W.T @ act_prev + self.b], then [relu] when the
    activation is ['relu']. *)
Definition __call__ (self : t) (act_prev : operand) : M ref :=
  let* wt := T (W self) in
  let* z := __matmul__ wt act_prev in
  let* act := __add__ z (Tensor (b self)) in
  if decide (activation self = Some "relu") then relu act else ret act.

(** Lines 26-27. *)
Definition parameters (self : t) : list ref := [W self; b self].

(** Lines 29-30: the tuple [dims] prints as [(nin, nout)]. *)
Definition __repr__ (self : t) : string :=
  (if decide (activation self = Some "relu") then "ReLU" else "Linear")
  +:+ "Layer" +:+ "(" +:+ pretty (dims self).1 +:+ ", " +:+ pretty (dims self).2 +:+ ")".

End Layer.

Module Sequential.

(** A [Sequential] object is its tuple [layers]. *)

(** The factor of line 37:
    [np.sqrt(2/layer.dims[0]) if layer.activation == 'relu' else 0.01];
    [None] is Python's [ZeroDivisionError] at [2/0].  (The quotient of
    the two ints is the float64 quotient for [dims[0]] below 2^53.) *)
Definition factor (layer : Layer.t) : option float :=
  if decide (Layer.activation layer = Some "relu")
  then if decide ((Layer.dims layer).1 = 0) then None
       else Some (PrimFloat.sqrt (2 / np.float_of_nat (Layer.dims layer).1))
  else Some 0x1.47ae147ae147bp-7%float.

(** Lines 36-38, the loop over [enumerate(self.layers)] from index
    [idx]; the value [None] is the [ZeroDivisionError] of line 37, which
    ends the loop. *)
Fixpoint rescale (idx : nat) (layers : list Layer.t) : M (option unit) :=
  match layers with
  | [] => ret (Some tt)
  | layer :: rest =>
      match factor layer with
      | None => ret None
      | Some c =>
          imul_data (Layer.W layer) c;;
          set_name (Layer.W layer) ("W" +:+ pretty (idx + 1));;
          set_name (Layer.b layer) ("b" +:+ pretty (idx + 1));;
          rescale (S idx) rest
      end
  end.

(** Lines 34-38. *)
Definition __init__ (layers : list Layer.t) : M (option (list Layer.t)) :=
  let* r := rescale 0 layers in
  ret (match r with Some _ => Some layers | None => None end).

(** Lines 40-43.  The input is whatever the caller passes; every later
    layer receives the [MicroTensor] that the one before returned. *)
Fixpoint __call__ (layers : list Layer.t) (x : operand) : M operand :=
  match layers with
  | [] => ret x
  | layer :: rest =>
      let* y := Layer.__call__ layer x in
      __call__ rest (Tensor y)
  end.

(** Lines 45-46. *)
Definition parameters (layers : list Layer.t) : list ref :=
  concat (map Layer.parameters layers).

End Sequential.

End nn.

(** ** The vocabulary of the further properties *)





(** Two axis lengths that numpy broadcasts together, and the length of
    the broadcast axis. *)
Definition broadcastable (m p : nat) : Prop := m = p \/ m = 1 \/ p = 1.

#[export] Instance broadcastable_dec m p : Decision (broadcastable m p).
Proof. unfold broadcastable. apply _. Defined.














(** ** Scenarios of the network classes *)





(** ** Lemmas on arrays *)

Lemma bcell_in_bounds (a : ndarray) (i j : nat) :
  i < np.nrows a -> j < np.ncols a -> np.bcell a i j = np.cell a i j.
Proof.
  intros Hi Hj. unfold np.bcell.
  destruct (Nat.eqb_spec (np.nrows a) 1), (Nat.eqb_spec (np.ncols a) 1);
    f_equal; lia.
Qed.

Lemma broadcast_dim_refl (m : nat) : np.broadcast_dim m m = Some m.
Proof. unfold np.broadcast_dim. by rewrite Nat.eqb_refl. Qed.

Lemma broadcast_shapes_refl (s : np.shape_t) : np.broadcast_shapes s s = Some s.
Proof. destruct s; simpl; [done|]. by rewrite !broadcast_dim_refl. Qed.

Lemma broadcast_dim_1_r (m : nat) : np.broadcast_dim m 1 = Some m.
Proof.
  unfold np.broadcast_dim.
  destruct (Nat.eqb_spec m 1) as [->|]; [done|].
  by rewrite Nat.eqb_refl.
Qed.

Lemma same_refl (a : ndarray) : np.same a a.
Proof. by split. Qed.

Lemma same_shape_rows (a b : ndarray) :
  np.shape a = np.shape b -> np.nrows a = np.nrows b /\ np.ncols a = np.ncols b.
Proof. unfold np.nrows, np.ncols. by intros ->. Qed.

(** Same-shape operands: the ufunc works cell by cell. *)
Lemma ufunc2_same_shape f (a b : ndarray) :
  np.shape a = np.shape b ->
  exists r, np.ufunc2 f a b = Some r /\ np.shape r = np.shape a /\
    forall i j, i < np.nrows a -> j < np.ncols a ->
      np.cell r i j = f (np.cell a i j) (np.cell b i j).
Proof.
  intros Hs. unfold np.ufunc2. rewrite <- Hs, broadcast_shapes_refl.
  eexists; split; [done|]. split; [done|].
  intros i j Hi Hj. simpl.
  destruct (same_shape_rows _ _ Hs) as [Hr Hc].
  rewrite !bcell_in_bounds by lia. done.
Qed.

Lemma iadd_same_shape (a b : ndarray) :
  np.shape a = np.shape b ->
  exists r, np.iadd a b = Some r /\ np.shape r = np.shape a /\
    forall i j, i < np.nrows a -> j < np.ncols a ->
      np.cell r i j = (np.cell a i j + np.cell b i j)%float.
Proof.
  intros Hs. destruct (ufunc2_same_shape PrimFloat.add a b Hs) as (r & Hr & Hsh & Hc).
  exists r. unfold np.iadd, np.add. rewrite Hr.
  rewrite decide_True by done. done.
Qed.

(** Adding a column, broadcast along the second axis. *)
Lemma add_column (a c : ndarray) m n :
  np.shape a = np.Matrix m n -> np.shape c = np.Matrix m 1 ->
  exists g, np.add a c = Some g /\ np.shape g = np.Matrix m n /\
    forall i j, i < m -> j < n ->
      np.cell g i j = (np.cell a i j + np.cell c i 0)%float.
Proof.
  intros Ha Hc. unfold np.add, np.ufunc2. rewrite Ha, Hc. simpl.
  rewrite broadcast_dim_refl, broadcast_dim_1_r.
  eexists. split; [done|]. split; [done|].
  intros i j Hi Hj. simpl.
  rewrite bcell_in_bounds by (unfold np.nrows, np.ncols; rewrite Ha; done).
  f_equal. unfold np.bcell, np.nrows, np.ncols. rewrite Hc. simpl.
  destruct (Nat.eqb_spec m 1); [|done]. f_equal. lia.
Qed.

Lemma multiply_scalar_l (a b : ndarray) :
  np.shape a = np.Scalar ->
  exists c, np.multiply a b = Some c /\ np.shape c = np.shape b.
Proof. intros Ha. unfold np.multiply, np.ufunc2. rewrite Ha. simpl. eauto. Qed.

Lemma multiply_scalar_r (a b : ndarray) :
  np.shape b = np.Scalar ->
  exists c, np.multiply a b = Some c /\ np.shape c = np.shape a.
Proof.
  intros Hb. unfold np.multiply, np.ufunc2. rewrite Hb.
  destruct (np.shape a); simpl; eauto.
Qed.

Lemma iadd_scalar_matrix (a b : ndarray) m n :
  np.shape a = np.Scalar -> np.shape b = np.Matrix m n -> np.iadd a b = None.
Proof.
  intros Ha Hb. unfold np.iadd, np.add, np.ufunc2. rewrite Ha, Hb.
  cbn [np.broadcast_shapes]. case_decide as H; [|done].
  simpl in H. congruence.
Qed.

Lemma matmul_Some (a b : ndarray) m k n :
  np.shape a = np.Matrix m k -> np.shape b = np.Matrix k n ->
  np.matmul a b =
    Some (np.NdArray (np.Matrix m n)
            (fun i j => np.fsum k (fun l => (np.cell a i l * np.cell b l j)%float))).
Proof. intros Ha Hb. unfold np.matmul. rewrite Ha, Hb. by rewrite decide_True. Qed.

Lemma sum_from_ext (f g : nat -> float) acc start len :
  (forall l, f l = g l) -> np.sum_from acc f start len = np.sum_from acc g start len.
Proof.
  intros Hfg. revert acc start. induction len as [|len IH]; intros acc start; [done|].
  simpl. by rewrite Hfg, IH.
Qed.

Lemma fsum_ext (f g : nat -> float) n :
  (forall l, f l = g l) -> np.fsum n f = np.fsum n g.
Proof.
  intros Hfg. destruct n as [|n]; [done|]. simpl.
  rewrite Hfg. by apply sum_from_ext.
Qed.

Lemma shape_T_T (a : ndarray) : np.shape (np.T (np.T a)) = np.shape a.
Proof. unfold np.T. destruct a as [[|m n] c]; simpl; done. Qed.

Lemma shape_T (a b : ndarray) :
  np.shape a = np.shape b -> np.shape (np.T a) = np.shape (np.T b).
Proof. unfold np.T. destruct a as [[|m n] c], b as [[|m' n'] c']; simpl; congruence. Qed.

Lemma shape_T_Matrix (a : ndarray) m n :
  np.shape a = np.Matrix m n ->
  np.shape (np.T a) = np.Matrix n m /\ forall i j, np.cell (np.T a) i j = np.cell a j i.
Proof. intros Ha. unfold np.T. rewrite Ha. done. Qed.

Lemma cell_T (a : ndarray) i j :
  np.cell (np.T a) i j =
    match np.shape a with np.Scalar => np.cell a i j | np.Matrix _ _ => np.cell a j i end.
Proof. unfold np.T. by destruct (np.shape a). Qed.

Lemma rows_T (a : ndarray) :
  np.nrows (np.T a) = np.ncols a /\ np.ncols (np.T a) = np.nrows a.
Proof. unfold np.T, np.nrows, np.ncols. destruct a as [[|m n] c]; simpl; done. Qed.

Lemma cell_T_ones s i j : np.cell (np.T (np.ones s)) i j = 1%float.
Proof. rewrite cell_T. simpl. by destruct s. Qed.

Lemma T_all_ones (a : ndarray) :
  (forall i j, i < np.nrows a -> j < np.ncols a -> np.cell a i j = 1%float) ->
  forall i j, i < np.nrows (np.T a) -> j < np.ncols (np.T a) ->
    np.cell (np.T a) i j = 1%float.
Proof.
  destruct a as [[|m n] c]; unfold np.T, np.nrows, np.ncols; simpl; intros H i j Hi Hj;
    by apply H.
Qed.

Lemma shape_T_ones (a : ndarray) : np.shape (np.T (np.ones (np.shape a))) = np.shape (np.T a).
Proof. by apply shape_T. Qed.

Lemma item_Some (a : ndarray) i j x :
  item a i j = Some x <-> i < np.nrows a /\ j < np.ncols a /\ np.cell a i j = x.
Proof.
  unfold item.
  destruct (Nat.ltb_spec i (np.nrows a)), (Nat.ltb_spec j (np.ncols a)); simpl;
    split; try done; try (intros (? & ? & _); lia).
  - by intros [= <-].
  - by intros (_ & _ & <-).
Qed.

(** ** Lemmas on float64 comparisons *)

Lemma Prim2SF_zero : Prim2SF 0 = S754_zero false.
Proof. reflexivity. Qed.

Lemma SFeqb_finite_refl s m e : SFeqb (S754_finite s m e) (S754_finite s m e) = true.
Proof.
  unfold SFeqb, SFcompare. rewrite Z.compare_refl, Pos.compare_refl.
  by destruct s.
Qed.

(** The forward rule [temp[temp < 0] = 0] is numpy's maximum with zero. *)
Lemma clip_is_maximum (x : float) :
  (if (x <? 0)%float then 0%float else x) = maximum x 0.
Proof.
  unfold maximum, PrimFloat.is_nan.
  rewrite ltb_spec, leb_spec, FloatAxioms.eqb_spec, Prim2SF_zero.
  destruct (Prim2SF x) as [[]|[]| |[] m e] eqn:Hx;
    try rewrite SFeqb_finite_refl; reflexivity.
Qed.

Lemma eqb_zero_not_positive (y : float) :
  (y =? 0)%float = true -> (0 <? y)%float = false.
Proof.
  rewrite ltb_spec, FloatAxioms.eqb_spec, Prim2SF_zero.
  destruct (Prim2SF y) as [[]|[]| |[] m e]; cbv; congruence.
Qed.

(** ** Lemmas on the state monad and on what the rules write *)

Lemma skeleton_insert_grad (h : list MicroTensor) (r : ref) t g :
  h !! r = Some t -> skeleton <$> <[r := with_grad t g]> h = skeleton <$> h.
Proof.
  intros Hr. rewrite list_fmap_insert. apply list_insert_id.
  by rewrite list_lookup_fmap, Hr.
Qed.

Lemma grads_changed_refl P s : grads_changed P s s.
Proof. by repeat split. Qed.

Lemma grads_changed_trans P s1 s2 s3 :
  grads_changed P s1 s2 -> grads_changed P s2 s3 -> grads_changed P s1 s3.
Proof.
  intros (Ha & Hb & Hc & Hd) (Ha' & Hb' & Hc' & Hd').
  repeat split; try congruence.
  intros i Hi. rewrite Hd', Hd; done.
Qed.

Lemma skeleton_fields t t' :
  skeleton t' = skeleton t ->
  data t' = data t /\ shape t' = shape t /\ name t' = name t /\
  _backward t' = _backward t /\ _prev t' = _prev t.
Proof. destruct t, t'. unfold skeleton, with_grad. simpl. intros [= -> -> -> -> ->]. done. Qed.

Lemma skeleton_lookup (h h' : list MicroTensor) (i : ref) t :
  skeleton <$> h' = skeleton <$> h -> h !! i = Some t ->
  exists t', h' !! i = Some t' /\ skeleton t' = skeleton t.
Proof.
  intros Ha Hi.
  assert ((skeleton <$> h') !! i = Some (skeleton t)) as Hl.
  { rewrite Ha, list_lookup_fmap, Hi. done. }
  rewrite list_lookup_fmap in Hl.
  destruct (h' !! i) as [t'|]; [|done].
  exists t'. split; [done|]. simpl in Hl. congruence.
Qed.

Lemma skeleton_backward t t' : skeleton t' = skeleton t -> _backward t' = _backward t.
Proof. intros H. by destruct (skeleton_fields _ _ H) as (_ & _ & _ & ? & _). Qed.

Lemma skeleton_prev t t' : skeleton t' = skeleton t -> _prev t' = _prev t.
Proof. intros H. by destruct (skeleton_fields _ _ H) as (_ & _ & _ & _ & ?). Qed.

Lemma skeleton_data t t' : skeleton t' = skeleton t -> data t' = data t.
Proof. intros H. by destruct (skeleton_fields _ _ H) as (? & _). Qed.

Lemma lookup_set_grad_eq (h : list MicroTensor) (r : ref) t g :
  h !! r = Some t -> <[r := with_grad t g]> h !! r = Some (with_grad t g).
Proof. intros Hr. apply list_lookup_insert_eq. by eapply lookup_lt_Some. Qed.

Lemma grad_of_Some s (r : ref) g :
  grad_of s r = Some g <-> exists t, heap s !! r = Some t /\ grad t = g.
Proof.
  unfold grad_of. destruct (heap s !! r) as [t|]; simpl; split.
  - intros [= <-]. by exists t.
  - by intros (? & [= <-] & <-).
  - done.
  - by intros (? & ? & _).
Qed.

Lemma grads_only_ret {A} P (v : A) : grads_only P (ret v).
Proof. intros s. split; [apply grads_changed_refl | done]. Qed.

Lemma grads_only_raise {A} P e : e <> RecursionError -> grads_only P (@raise A e).
Proof. intros He s. split; [apply grads_changed_refl | simpl; congruence]. Qed.

Lemma grads_only_np_try {A} P e (o : option A) :
  e <> RecursionError -> grads_only P (np_try e o).
Proof.
  intros He. destruct o; [apply grads_only_ret | by apply grads_only_raise].
Qed.

Lemma grads_only_deref P r : grads_only P (deref r).
Proof.
  intros s. unfold deref.
  destruct (heap s !! r); (split; [apply grads_changed_refl | done]).
Qed.

Lemma grads_only_bind {A B} P (m : M A) (k : A -> M B) :
  grads_only P m -> (forall v, grads_only P (k v)) -> grads_only P (bind m k).
Proof.
  intros Hm Hk s. unfold bind.
  destruct (Hm s) as [H1 H2].
  destruct (m s) as [v s1|e s1]; [|done].
  destruct (Hk v s1) as [H3 H4].
  split; [|done]. eapply grads_changed_trans; eauto.
Qed.

Lemma grads_only_set_grad (P : ref -> Prop) r g : P r -> grads_only P (set_grad r g).
Proof.
  intros HP s. unfold set_grad.
  destruct (heap s !! r) as [t|] eqn:Hr;
    [|split; [apply grads_changed_refl | done]].
  split; [|done]. repeat split; simpl; try done.
  - by apply skeleton_insert_grad.
  - intros i Hi. apply list_lookup_insert_ne. congruence.
Qed.

Create HintDb frame.
#[export] Hint Resolve grads_only_ret grads_only_deref grads_only_set_grad : frame.
#[export] Hint Extern 1 (grads_only _ (np_try _ _)) =>
  apply grads_only_np_try; discriminate : frame.
#[export] Hint Extern 2 (grads_only _ (bind _ _)) =>
  apply grads_only_bind; [|intros ?] : frame.

Lemma grads_only_rebind_add (P : ref -> Prop) r c : P r -> grads_only P (rebind_add r c).
Proof. intros HP. unfold rebind_add. auto 10 with frame. Qed.

Lemma grads_only_inplace_add (P : ref -> Prop) r c : P r -> grads_only P (inplace_add r c).
Proof. intros HP. unfold inplace_add. auto 10 with frame. Qed.

Lemma grads_only_row_mean P r : grads_only P (row_mean r).
Proof. unfold row_mean. auto 10 with frame. Qed.

#[export] Hint Resolve grads_only_rebind_add grads_only_inplace_add
  grads_only_row_mean : frame.

(** A rule writes only to the objects in [targets]. *)
Ltac frame_step :=
  first [ apply grads_only_bind; [|intros ?]
        | apply grads_only_ret
        | apply grads_only_deref
        | apply grads_only_np_try; discriminate
        | apply grads_only_row_mean
        | apply grads_only_set_grad; simpl; set_solver
        | apply grads_only_rebind_add; simpl; set_solver
        | apply grads_only_inplace_add; simpl; set_solver ].

Lemma grads_only_call (c : closure) : grads_only (fun i => i ∈ targets c) (call c).
Proof. destruct c; simpl; repeat frame_step. Qed.

(** ** The traversal *)

Section traversal.
Context (h : list MicroTensor) (Hwf : heap_wf h).

Lemma parent_lt c p : parent_of h c p -> p < c.
Proof.
  intros (t & Ht & Hp). destruct (Hwf c t Ht) as [Hlt _].
  rewrite Forall_forall in Hlt. by apply Hlt.
Qed.

Lemma reachable_le x y : reachable h x y -> y <= x.
Proof.
  induction 1 as [|x y z Hxy _ IH]; [done|].
  apply parent_lt in Hxy. lia.
Qed.

Lemma topo_nil : topo h [].
Proof.
  split; [constructor|]. intros l1 c l2 t p Heq. by destruct l1.
Qed.

Lemma topo_closed ch x y : topo h ch -> x ∈ ch -> reachable h x y -> y ∈ ch.
Proof.
  intros [_ Hord] Hx Hreach. induction Hreach as [|x y z (t & Ht & Hp) _ IH]; [done|].
  apply IH. apply list_elem_of_split in Hx as (l1 & l2 & ->).
  apply elem_of_app. left. eapply Hord; eauto.
Qed.

Lemma topo_snoc ch x t :
  topo h ch -> x ∉ ch -> h !! x = Some t -> (forall p, p ∈ _prev t -> p ∈ ch) ->
  topo h (ch ++ [x]).
Proof.
  intros [Hnd Hord] Hx Ht Hps. split.
  - apply NoDup_app. split; [done|]. split; [|apply NoDup_singleton].
    intros y Hy Hy'. apply list_elem_of_singleton in Hy'. by subst.
  - intros l1 c l2 t' p Heq Hc Hp.
    destruct l2 as [|z l2 _] using rev_ind.
    + apply app_inj_tail in Heq as [-> ->]. simplify_eq. by apply Hps.
    + rewrite app_comm_cons, app_assoc in Heq.
      apply app_inj_tail in Heq as [-> ->]. eapply Hord; eauto.
Qed.

(** The loop over the parents, given the traversal of each parent. *)
Lemma for_each_spec depth ps :
  (forall p ch, p ∈ ps -> topo h ch ->
     exists ext, traverse depth h p ch = Some (ch ++ ext) /\
       topo h (ch ++ ext) /\ p ∈ ch ++ ext /\ Forall (reachable h p) ext) ->
  forall ch, topo h ch ->
    exists ext, for_each (traverse depth h) ps ch = Some (ch ++ ext) /\
      topo h (ch ++ ext) /\ (forall p, p ∈ ps -> p ∈ ch ++ ext) /\
      Forall (fun y => exists p, p ∈ ps /\ reachable h p y) ext.
Proof.
  induction ps as [|p ps IHps]; intros IH ch Hch.
  - exists []. rewrite app_nil_r. simpl.
    split; [done|]. split; [done|]. split; [|done].
    intros p Hp. by apply elem_of_nil in Hp.
  - simpl. destruct (IH p ch ltac:(by left) Hch) as (e1 & -> & Ht1 & Hin1 & Hr1).
    destruct (IHps (fun q ch' Hq => IH q ch' ltac:(by right)) _ Ht1)
      as (e2 & -> & Ht2 & Hin2 & Hr2).
    exists (e1 ++ e2). rewrite app_assoc.
    split; [done|]. split; [done|]. split.
    + intros q Hq. apply elem_of_cons in Hq as [->|Hq]; [|by apply Hin2].
      apply elem_of_app. by left.
    + apply Forall_app. split.
      * eapply Forall_impl; [exact Hr1|]. intros y Hy. exists p. split; [left|done].
      * eapply Forall_impl; [exact Hr2|]. intros y (q & Hq & Hy).
        exists q. split; [by right|done].
Qed.

(** [traverse] comes back when the graph below its argument is at most
    as deep as the limit, and extends [children] by objects reachable
    from that argument, keeping the order. *)
Lemma traverse_spec depth : forall x ch,
  within depth h x = true -> topo h ch ->
  exists ext, traverse depth h x ch = Some (ch ++ ext) /\
    topo h (ch ++ ext) /\ x ∈ ch ++ ext /\ Forall (reachable h x) ext.
Proof.
  induction depth as [|depth IH]; intros x ch Hd Hch; [done|].
  cbn [traverse]. case_bool_decide as Hin.
  - exists []. rewrite app_nil_r. done.
  - cbn [within] in Hd. destruct (h !! x) as [t|] eqn:Ht; [|done].
    rewrite forallb_forall in Hd.
    destruct (Hwf x t Ht) as [Hlt _].
    destruct (for_each_spec depth (_prev t)) with (ch := ch)
      as (ext & -> & Htopo & Hps & Hreach); try done.
    { intros p ch' Hp Hch'. apply IH; [|done]. by apply Hd, list_elem_of_In. }
    assert (x ∉ ch ++ ext) as Hnotin.
    { intros [?|Hx']%elem_of_app; [done|].
      rewrite Forall_forall in Hreach.
      destruct (Hreach x Hx') as (p & Hp & Hpx).
      apply reachable_le in Hpx. rewrite Forall_forall in Hlt.
      specialize (Hlt p Hp). lia. }
    exists (ext ++ [x]). rewrite app_assoc.
    split; [done|]. split; [|split].
    + eapply topo_snoc; eauto.
    + apply elem_of_app. right. by left.
    + apply Forall_app. split; [|by repeat constructor].
      eapply Forall_impl; [exact Hreach|]. intros y (p & Hp & Hy).
      eapply rtc_l; [|exact Hy]. by exists t.
Qed.

(** An object is allocated after everything below it, so that the graph
    below the object of index [x] is at most [x + 1] deep. *)
Lemma within_index depth : forall x,
  x < depth -> x < length h -> within depth h x = true.
Proof.
  induction depth as [|depth IH]; intros x Hd Hx; [lia|].
  cbn [within]. destruct (lookup_lt_is_Some_2 h x Hx) as [t Ht]. rewrite Ht.
  apply forallb_forall. intros p Hp%list_elem_of_In.
  destruct (Hwf x t Ht) as [Hlt _]. rewrite Forall_forall in Hlt.
  specialize (Hlt p Hp). apply IH; lia.
Qed.

Lemma traverse_spec_index depth x ch :
  x < depth -> x < length h -> topo h ch ->
  exists ext, traverse depth h x ch = Some (ch ++ ext) /\
    topo h (ch ++ ext) /\ x ∈ ch ++ ext /\ Forall (reachable h x) ext.
Proof. intros Hd Hx. apply traverse_spec. by apply within_index. Qed.

(** The order in which [backward] calls the rules. *)
Lemma topo_before ch c t p :
  topo h ch -> c ∈ ch -> h !! c = Some t -> p ∈ _prev t -> before (rev ch) c p.
Proof.
  intros [_ Hord] Hc Ht Hp.
  apply list_elem_of_split in Hc as (l1 & l2 & ->).
  pose proof (Hord l1 c l2 t p eq_refl Ht Hp) as Hp1.
  apply list_elem_of_split in Hp1 as (l1a & l1b & ->).
  exists (rev l2), (rev l1b), (rev l1a).
  rewrite !rev_app_distr. simpl. rewrite ?rev_app_distr. simpl.
  rewrite <- ?app_assoc. simpl. rewrite <- ?app_assoc. done.
Qed.

End traversal.

(** More room changes nothing in a traversal that came back. *)
Lemma traverse_mono (h : list MicroTensor) d : forall d' (x : ref) ch r,
  d <= d' -> traverse d h x ch = Some r -> traverse d' h x ch = Some r.
Proof.
  induction d as [|d IH]; intros d' x ch r Hle; [done|].
  destruct d' as [|d']; [lia|]. cbn [traverse]. case_bool_decide; [done|].
  destruct (h !! x) as [t|]; [|done].
  assert (forall ps c c', for_each (traverse d h) ps c = Some c' ->
            for_each (traverse d' h) ps c = Some c') as Hfe.
  { induction ps as [|p ps IHps]; intros c c' Hc; [done|]. simpl in *.
    destruct (traverse d h p c) as [c1|] eqn:E; [|done].
    rewrite (IH d' p c c1 ltac:(lia) E). by apply IHps. }
  destruct (for_each (traverse d h) (_prev t) ch) as [c'|] eqn:E; [|done].
  by rewrite (Hfe _ _ _ E).
Qed.

Lemma traverse_agree (h : list MicroTensor) d d' (x : ref) ch r r' :
  traverse d h x ch = Some r -> traverse d' h x ch = Some r' -> r = r'.
Proof.
  intros H H'.
  apply (traverse_mono h d (d + d')) in H; [|lia].
  apply (traverse_mono h d' (d + d')) in H'; [|lia]. congruence.
Qed.

(** What a traversal that came back has built. *)
Lemma traverse_Some_spec (h : list MicroTensor) limit (x : ref) children :
  heap_wf h -> x < length h ->
  traverse limit h x [] = Some children ->
  topo h children /\ x ∈ children /\ Forall (reachable h x) children.
Proof.
  intros Hwf Hx Htr.
  destruct (traverse_spec_index h Hwf (S x) x [] ltac:(lia) Hx (topo_nil h))
    as (ext & Hext & Htopo & Hin & Hreach).
  change ([] ++ ext) with ext in *.
  by rewrite (traverse_agree h _ _ _ _ _ _ Htr Hext).
Qed.

(** A traversal within the limit gives the list that any limit gives. *)
Lemma traverse_within (h : list MicroTensor) limit d (x : ref) children :
  heap_wf h -> within limit h x = true ->
  traverse d h x [] = Some children -> traverse limit h x [] = Some children.
Proof.
  intros Hwf Hin Htr.
  destruct (traverse_spec h Hwf limit x [] Hin (topo_nil h)) as (ext & Hext & _).
  by rewrite Hext, (traverse_agree h _ _ _ _ _ _ Hext Htr).
Qed.

Lemma within_mono (h : list MicroTensor) d : forall d' (x : ref),
  d <= d' -> within d h x = true -> within d' h x = true.
Proof.
  induction d as [|d IH]; intros d' x Hle Hd; [done|].
  destruct d' as [|d']; [lia|]. cbn [within] in *.
  destruct (h !! x) as [t|]; [|done].
  rewrite forallb_forall in *. intros p Hp. apply (IH d'); [lia|by apply Hd].
Qed.

Lemma within_app (h ext : list MicroTensor) d : forall (x : ref),
  within d h x = true -> within d (h ++ ext) x = true.
Proof.
  induction d as [|d IH]; intros x Hd; [done|]. cbn [within] in *.
  destruct (h !! x) as [t|] eqn:Ht; [|done].
  rewrite (lookup_app_l_Some _ _ _ _ Ht).
  rewrite forallb_forall in *. intros p Hp. by apply IH, Hd.
Qed.

Lemma within_node (h : list MicroTensor) d (x : ref) t :
  h !! x = Some t -> Forall (fun p => within d h p = true) (_prev t) ->
  within (S d) h x = true.
Proof.
  intros Ht Hps. cbn [within]. rewrite Ht. apply forallb_forall.
  intros p Hp%list_elem_of_In. rewrite Forall_forall in Hps. by apply Hps.
Qed.

Lemma within_lookup (h : list MicroTensor) d (x : ref) :
  within d h x = true -> x < length h /\ 0 < d.
Proof.
  destruct d; [done|]. cbn [within].
  destruct (h !! x) as [t|] eqn:Ht; [|done].
  intros _. split; [by eapply lookup_lt_Some|lia].
Qed.

Lemma traverse_single (h : list MicroTensor) depth (x : ref) t p :
  h !! x = Some t -> _prev t = [p] ->
  traverse (S depth) h x [] = (fun ch => ch ++ [x]) <$> traverse depth h p [].
Proof.
  intros Hx Hp. cbn [traverse]. rewrite bool_decide_eq_false_2 by apply not_elem_of_nil.
  rewrite Hx, Hp. simpl. by destruct (traverse depth h p []).
Qed.

Lemma traverse_two (h : list MicroTensor) depth (x : ref) t p q ch :
  x ∉ ch -> h !! x = Some t -> _prev t = [p; q] ->
  traverse (S depth) h x ch =
    match traverse depth h p ch with
    | Some c1 =>
        match traverse depth h q c1 with
        | Some c2 => Some (c2 ++ [x])
        | None => None
        end
    | None => None
    end.
Proof.
  intros Hx Ht Hp. cbn [traverse]. rewrite bool_decide_eq_false_2 by done.
  rewrite Ht, Hp. simpl. destruct (traverse depth h p ch) as [c1|]; [|done].
  by destruct (traverse depth h q c1).
Qed.

Lemma traverse_leaf (h : list MicroTensor) depth (x : ref) t ch :
  x ∉ ch -> h !! x = Some t -> _prev t = [] ->
  traverse (S depth) h x ch = Some (ch ++ [x]).
Proof.
  intros Hx Ht Hp. cbn [traverse]. rewrite bool_decide_eq_false_2 by done.
  by rewrite Ht, Hp.
Qed.

Lemma Forall_reachable_le (h : list MicroTensor) (x : ref) l :
  heap_wf h -> Forall (reachable h x) l -> Forall (fun c => c <= x) (rev l).
Proof.
  intros Hwf Hl. apply Forall_forall. intros c Hc.
  apply list_elem_of_In, in_rev, list_elem_of_In in Hc.
  rewrite Forall_forall in Hl. by apply (reachable_le h Hwf), Hl.
Qed.

(** ** The graph invariant *)

Lemma heap_wfb_correct h : heap_wfb h = true -> heap_wf h.
Proof.
  unfold heap_wfb. rewrite forallb_forall. intros Hall i t Hi.
  assert (In (i, t) (imap pair h)) as Hin.
  { apply list_elem_of_In, elem_of_lookup_imap. by exists i, t. }
  apply Hall in Hin. simpl in Hin. by apply bool_decide_eq_true in Hin.
Qed.

Lemma targets_prev i t x : closure_fits i t -> x ∈ targets (_backward t) -> x ∈ _prev t.
Proof.
  unfold closure_fits. destruct (_backward t); simpl; try (intros [_ ->]); try done.
  by intros _ ?%elem_of_nil.
Qed.

Lemma closure_of_leaf i t : closure_fits i t -> _prev t = [] -> _backward t = lambda_None.
Proof.
  unfold closure_fits. destruct (_backward t); try done; intros [_ ->]; done.
Qed.

(** Well-formedness only looks at the graph. *)
Lemma heap_wf_skeleton (h h' : list MicroTensor) :
  skeleton <$> h' = skeleton <$> h -> heap_wf h -> heap_wf h'.
Proof.
  intros Heq Hwf i t' Ht'.
  destruct (skeleton_lookup h' h i t' (eq_sym Heq) Ht') as (t & Ht & Hsk).
  specialize (Hwf i t Ht). unfold node_wf, closure_fits in *.
  by rewrite <- (skeleton_backward _ _ Hsk), <- (skeleton_prev _ _ Hsk).
Qed.

Lemma heap_wf_set_grad (h : list MicroTensor) (r : ref) t g :
  heap_wf h -> h !! r = Some t -> heap_wf (<[r := with_grad t g]> h).
Proof.
  intros Hwf Hr. eapply heap_wf_skeleton; [|exact Hwf].
  by apply skeleton_insert_grad.
Qed.

Lemma heap_wf_alloc (h : list MicroTensor) t :
  heap_wf h -> node_wf (length h) t -> heap_wf (h ++ [t]).
Proof.
  intros Hwf Ht i u Hi.
  destruct (decide (i < length h)) as [Hlt|Hge].
  - rewrite lookup_app_l in Hi by done. by apply Hwf.
  - pose proof (lookup_lt_Some _ _ _ Hi) as Hlen.
    rewrite length_app in Hlen. simpl in Hlen.
    assert (i = length h) as -> by lia.
    rewrite list_lookup_middle in Hi by done. by injection Hi as <-.
Qed.

(** ** The loop over the reversed list *)

Lemma call_each_cons c cs s t :
  heap s !! c = Some t ->
  call_each (c :: cs) s =
    match call (_backward t) (mkState (heap s) (_trackGrad s) (calls s ++ [c])) with
    | Ok _ s2 => call_each cs s2
    | Raise e s2 => Raise e s2
    end.
Proof. intros Hc. simpl. unfold bind, deref, log_call. by rewrite Hc. Qed.

Lemma call_each_dangling c cs s :
  heap s !! c = None -> call_each (c :: cs) s = Raise DanglingRef s.
Proof. intros Hc. simpl. unfold bind, deref. by rewrite Hc. Qed.

Lemma raised_call_each_cons c cs s t e :
  heap s !! c = Some t ->
  raised (call (_backward t) (mkState (heap s) (_trackGrad s) (calls s ++ [c]))) = Some e ->
  raised (call_each (c :: cs) s) = Some e.
Proof.
  intros Hc Hr. rewrite (call_each_cons _ _ _ _ Hc).
  by destruct (call (_backward t) _).
Qed.

Lemma call_each_spec (P : ref -> Prop) (cs : list ref) : forall s,
  (forall c t, c ∈ cs -> heap s !! c = Some t ->
     forall x, x ∈ targets (_backward t) -> P x) ->
  skeleton <$> heap (final (call_each cs s)) = skeleton <$> heap s /\
  _trackGrad (final (call_each cs s)) = _trackGrad s /\
  (forall i, ~ P i -> heap (final (call_each cs s)) !! i = heap s !! i) /\
  raised (call_each cs s) <> Some RecursionError /\
  exists invoked,
    calls (final (call_each cs s)) = calls s ++ invoked /\
    invoked `prefix_of` cs /\
    (raised (call_each cs s) = None -> invoked = cs).
Proof.
  induction cs as [|c cs IH]; intros s Htg.
  - simpl. split; [done|]. split; [done|]. split; [done|]. split; [done|].
    exists []. by rewrite app_nil_r.
  - destruct (heap s !! c) as [t|] eqn:Hc.
    + rewrite (call_each_cons _ _ _ _ Hc).
      set (s1 := mkState (heap s) (_trackGrad s) (calls s ++ [c])).
      destruct (grads_only_call (_backward t) s1) as [(Hsk & Htr & Hcl & Hfr) Hrec].
      assert (forall i, ~ P i -> heap (final (call (_backward t) s1)) !! i = heap s !! i)
        as Hfr'.
      { intros i Hi. apply Hfr. intros Hin. apply Hi. eapply Htg; eauto. by left. }
      destruct (call (_backward t) s1) as [[] s2|e s2]; simpl in *.
      * destruct (IH s2) as (Hsk2 & Htr2 & Hfr2 & Hrec2 & inv & Hcl2 & Hpre & Hall).
        { intros c' t' Hc' Ht' x Hx.
          destruct (skeleton_lookup _ _ c' t' (eq_sym Hsk) Ht') as (t0 & Ht0 & Hsk0).
          eapply (Htg c' t0); [by right|done|].
          by rewrite (skeleton_backward _ _ Hsk0). }
        split; [by rewrite Hsk2, Hsk|]. split; [by rewrite Htr2, Htr|].
        split; [intros i Hi; rewrite Hfr2, Hfr'; done|]. split; [done|].
        exists (c :: inv). split; [|split].
        -- rewrite Hcl2, Hcl. by rewrite <- app_assoc.
        -- by apply prefix_cons.
        -- intros Hr. by rewrite Hall.
      * split; [done|]. split; [done|]. split; [done|]. split; [done|].
        exists [c]. split; [done|]. split; [|done].
        apply prefix_cons, prefix_nil.
    + rewrite (call_each_dangling _ _ _ Hc). simpl.
      split; [done|]. split; [done|]. split; [done|]. split; [done|].
      exists []. split; [by rewrite app_nil_r|]. split; [apply prefix_nil|done].
Qed.

(** Rules of objects up to [X] do not write to [X]. *)
Lemma call_each_below s rest (X : ref) :
  heap_wf (heap s) -> Forall (fun c => c <= X) rest ->
  heap (final (call_each rest s)) !! X = heap s !! X.
Proof.
  intros Hwf Hle.
  destruct (call_each_spec (fun i => i < X) rest s) as (_ & _ & Hframe & _).
  - intros c t Hc Ht x Hx. rewrite Forall_forall in Hle. specialize (Hle c Hc).
    destruct (Hwf c t Ht) as [Hlt Hfit].
    apply (targets_prev c t x Hfit) in Hx.
    rewrite Forall_forall in Hlt. specialize (Hlt x Hx). lia.
  - apply Hframe. lia.
Qed.

(** The rules that [backward r] calls write to objects allocated before [r]. *)
Lemma schedule_targets_lt (h : list MicroTensor) r children :
  heap_wf h -> Forall (reachable h r) children ->
  forall c t, c ∈ rev children -> h !! c = Some t ->
    forall x, x ∈ targets (_backward t) -> x < r.
Proof.
  intros Hwf Hreach c t Hc Ht x Hx.
  apply list_elem_of_In, in_rev, list_elem_of_In in Hc.
  rewrite Forall_forall in Hreach. specialize (Hreach c Hc).
  apply (reachable_le h Hwf) in Hreach.
  destruct (Hwf c t Ht) as [Hlt Hfit].
  apply (targets_prev c t x Hfit) in Hx.
  rewrite Forall_forall in Hlt. specialize (Hlt x Hx). lia.
Qed.

(** [backward] when the traversal exceeds the limit: [RecursionError],
    and the state is as it was. *)
Lemma backward_limit_hit limit s (r : ref) :
  traverse limit (heap s) r [] = None -> backward limit r s = Raise RecursionError s.
Proof. intros Htr. unfold backward. by rewrite Htr. Qed.

Lemma backward_with_children limit s r t children :
  traverse limit (heap s) r [] = Some children ->
  heap s !! r = Some t ->
  backward limit r s =
    call_each (rev children)
      (with_heap s (<[r := with_grad t (np.ones (np.shape (data t)))]> (heap s))).
Proof.
  intros Htr Hr. unfold backward. rewrite Htr. unfold bind, deref. rewrite Hr.
  unfold set_grad. by rewrite Hr.
Qed.

(** [backward] on a graph that the operations built: either the
    traversal exceeds the limit, or the rest is the seeding and the
    loop over the list that the traversal built. *)
Lemma backward_cases limit s r t :
  heap_wf (heap s) -> heap s !! r = Some t ->
  (traverse limit (heap s) r [] = None /\
   backward limit r s = Raise RecursionError s) \/
  exists children,
    traverse limit (heap s) r [] = Some children /\
    topo (heap s) children /\ r ∈ children /\
    Forall (reachable (heap s) r) children /\
    backward limit r s =
      call_each (rev children)
        (with_heap s (<[r := with_grad t (np.ones (np.shape (data t)))]> (heap s))).
Proof.
  intros Hwf Hr.
  pose proof (lookup_lt_Some _ _ _ Hr) as Hlt.
  destruct (traverse limit (heap s) r []) as [children|] eqn:Htr.
  - right. exists children.
    destruct (traverse_Some_spec _ _ _ _ Hwf Hlt Htr) as (Htopo & Hin & Hreach).
    split; [done|]. split; [done|]. split; [done|]. split; [done|].
    by apply backward_with_children.
  - left. split; [done|]. by apply backward_limit_hit.
Qed.


(** The rules that a pass from [r] calls leave [r.grad] as seeded. *)
Lemma seed_kept limit (s : state) (r : ref) (t : MicroTensor) :
  heap_wf (heap s) ->
  heap s !! r = Some t ->
  traverse limit (heap s) r [] <> None ->
  raised (backward limit r s) <> Some RecursionError /\
  grad_of (final (backward limit r s)) r = Some (np.ones (np.shape (data t))).
Proof.
  intros Hwf Hr Hback.
  destruct (backward_cases limit s r t Hwf Hr)
    as [[Hnone _]|(children & Htr & Htopo & Hin & Hreach & ->)]; [done|].
  set (seeded := <[r := with_grad t (np.ones (np.shape (data t)))]> (heap s)).
  pose proof (lookup_lt_Some _ _ _ Hr) as Hlt.
  assert (seeded !! r = Some (with_grad t (np.ones (np.shape (data t))))) as Hseed.
  { by apply list_lookup_insert_eq. }
  assert (skeleton <$> seeded = skeleton <$> heap s) as Hsk
    by (by apply skeleton_insert_grad).
  destruct (call_each_spec (fun i => i < r) (rev children) (with_heap s seeded))
    as (_ & _ & Hframe & Hrec & _).
  { simpl. intros c tc Hc Htc x Hx.
    destruct (skeleton_lookup _ _ c tc (eq_sym Hsk) Htc) as (t0 & Ht0 & Hsk0).
    eapply (schedule_targets_lt (heap s)); eauto.
    by rewrite (skeleton_backward _ _ Hsk0). }
  split; [done|].
  unfold grad_of. rewrite Hframe by lia. simpl. by rewrite Hseed.
Qed.

(** A pass on a graph that is deep for a smaller limit already. *)
Lemma backward_fuel limit d s (r : ref) :
  heap_wf (heap s) -> within d (heap s) r = true -> d <= limit ->
  backward limit r s = backward d r s.
Proof.
  intros Hwf Hin Hle. unfold backward.
  destruct (traverse_spec (heap s) Hwf d r [] Hin (topo_nil _)) as (children & Htr & _).
  by rewrite Htr, (traverse_mono _ _ _ _ _ _ Hle Htr).
Qed.

Lemma then_backward_fuel limit d (build : M ref) s :
  heap_wf (heap (final (build s))) ->
  match build s with Ok c s1 => within d (heap s1) c = true | Raise _ _ => True end ->
  d <= limit ->
  then_backward limit build s = then_backward d build s.
Proof.
  intros Hwf Hin Hle. unfold then_backward, bind.
  destruct (build s) as [c s1|e s1]; [|done]. by apply backward_fuel.
Qed.

(** A scenario whose graph is [d] deep, under any limit from [d] on. *)
Ltac scenario_at d :=
  match goal with
  | Hl : _ <= ?limit |- _ =>
      rewrite (then_backward_fuel limit d);
        [vm_compute; repeat split
        |apply heap_wfb_correct; vm_compute; reflexivity
        |vm_compute; reflexivity
        |exact Hl]
  end.

(** ** Closed forms of the operations *)

Lemma lookup_alloc_new s t : heap (alloc s t) !! length (heap s) = Some t.
Proof. simpl. by rewrite list_lookup_middle. Qed.

Lemma lookup_alloc_old s t (i : ref) x : heap s !! i = Some x -> heap (alloc s t) !! i = Some x.
Proof. simpl. intros H. by apply lookup_app_l_Some. Qed.

Lemma coerce_coerced other s : coerce other s = Ok (coerced other s).1 (coerced other s).2.
Proof. by destruct other. Qed.

Lemma binary_after_coerce f nm rule self o s :
  (let* s_ := deref self in
   let* o_ := deref o in
   let* d := np_try ValueError (f (data s_) (data o_)) in
   let* tracked := both_tracked in
   let* out := __init__ d (nm (name s_) (name o_))
                 (if tracked then [self; o] else []) in
   let* tracked' := both_tracked in
   set_backward out (if tracked' then rule self o out else lambda_None);;
   ret out) s
  = binary_result f nm rule self o s.
Proof.
  unfold binary_result, bind, ret, deref, both_tracked, read_trackGrad.
  destruct (heap s !! self) as [ts|]; [|done].
  destruct (heap s !! o) as [to_|]; [|done].
  destruct (f (data ts) (data to_)) as [d|]; [|done]. simpl.
  unfold __init__, set_backward, alloc, fresh, with_heap. simpl.
  rewrite list_lookup_middle by done. simpl. rewrite !andb_diag. do 2 f_equal.
  replace (length (heap s)) with (length (heap s) + 0) at 1 by lia.
  rewrite insert_app_r. done.
Qed.

Lemma add_closed_form self other s :
  __add__ self other s =
    binary_result np.add (fun a b => "(" +:+ a +:+ "+" +:+ b +:+ ")") add_backward
      self (coerced other s).1 (coerced other s).2.
Proof.
  unfold __add__. unfold bind at 1. rewrite coerce_coerced.
  exact (binary_after_coerce np.add (fun a b => "(" +:+ a +:+ "+" +:+ b +:+ ")")
           add_backward self _ _).
Qed.

Lemma matmul_closed_form self other s :
  __matmul__ self other s =
    binary_result np.dot (fun a b => a +:+ "@" +:+ b) matmul_backward
      self (coerced other s).1 (coerced other s).2.
Proof.
  unfold __matmul__. unfold bind at 1. rewrite coerce_coerced.
  exact (binary_after_coerce np.dot (fun a b => a +:+ "@" +:+ b)
           matmul_backward self _ _).
Qed.

Lemma mul_closed_form self other s :
  __mul__ self other s =
    binary_result np.multiply (fun a b => a +:+ "*" +:+ b) mul_backward
      self (coerced other s).1 (coerced other s).2.
Proof.
  unfold __mul__. unfold bind at 1. rewrite coerce_coerced.
  exact (binary_after_coerce np.multiply (fun a b => a +:+ "*" +:+ b)
           mul_backward self _ _).
Qed.

Ltac unary_closed_form f :=
  intros self s;
  unfold f, unary_result, bind, ret, deref, read_trackGrad;
  destruct (heap s !! self) as [ts|]; [|done];
  unfold __init__, set_backward, alloc, fresh, with_heap; simpl;
  rewrite list_lookup_middle by done; simpl; do 2 f_equal;
  (match goal with |- <[length ?l := _]> _ = _ =>
     replace (length l) with (length l + 0) at 1 by lia end);
  rewrite insert_app_r; done.

Lemma relu_closed_form self s :
  relu self s =
    unary_result np.clip_negative (fun a => "ReLU(" +:+ a +:+ ")") relu_backward self s.
Proof. revert self s. unary_closed_form relu. Qed.

Lemma T_closed_form self s :
  T self s = unary_result np.T (fun a => a +:+ ".T") T_backward self s.
Proof. revert self s. unary_closed_form T. Qed.

(** ** Programs keep the graph invariant *)













Lemma track_grad_wf {A} st (body : M A) s :
  (forall s0, heap_wf (heap s0) -> heap_wf (heap (final (body s0)))) ->
  heap_wf (heap s) -> heap_wf (heap (final (track_grad st body s))).
Proof.
  intros Hbody Hwf. unfold track_grad.
  specialize (Hbody (set_trackGrad st s) Hwf).
  by destruct (body (set_trackGrad st s)).
Qed.



Lemma add_scenario_wf : heap_wf (heap (final (add_scenario initial_state))).
Proof. apply heap_wfb_correct. vm_compute. reflexivity. Qed.

(** ** Running single steps of a rule *)

Lemma rebind_add_Ok s (r : ref) t c g :
  heap s !! r = Some t -> np.add (grad t) c = Some g ->
  rebind_add r c s = Ok tt (with_heap s (<[r := with_grad t g]> (heap s))).
Proof.
  intros Hr Hg. unfold rebind_add, bind, deref. rewrite Hr, Hg. simpl.
  unfold set_grad. by rewrite Hr.
Qed.

Lemma inplace_add_Ok s (r : ref) t c g :
  heap s !! r = Some t -> np.iadd (grad t) c = Some g ->
  inplace_add r c s = Ok tt (with_heap s (<[r := with_grad t g]> (heap s))).
Proof.
  intros Hr Hg. unfold inplace_add, bind, deref. rewrite Hr, Hg. simpl.
  unfold set_grad. by rewrite Hr.
Qed.

Lemma inplace_add_Raise s (r : ref) t c :
  heap s !! r = Some t -> np.iadd (grad t) c = None ->
  inplace_add r c s = Raise ValueError s.
Proof. intros Hr Hg. unfold inplace_add, bind, deref. by rewrite Hr, Hg. Qed.

Lemma row_mean_Ok s (r : ref) t m n :
  heap s !! r = Some t -> np.shape (grad t) = np.Matrix m n ->
  row_mean r s =
    Ok (np.divide_int
          (np.NdArray (np.Matrix m 1) (fun i _ => np.fsum n (fun k => np.cell (grad t) i k)))
          n) s.
Proof.
  intros Hr Hs. unfold row_mean, bind, deref. rewrite Hr.
  unfold np.sum_axis1_keepdims, np.ncols. rewrite Hs. done.
Qed.

Lemma call_T_backward s (X Y : ref) tX tY :
  heap s !! X = Some tX -> heap s !! Y = Some tY ->
  np.shape (grad tX) = np.shape (np.T (grad tY)) ->
  exists g,
    call (T_backward X Y) s = Ok tt (with_heap s (<[X := with_grad tX g]> (heap s))) /\
    np.shape g = np.shape (grad tX) /\
    forall i j, i < np.nrows (grad tX) -> j < np.ncols (grad tX) ->
      np.cell g i j = (np.cell (grad tX) i j + np.cell (np.T (grad tY)) i j)%float.
Proof.
  intros HX HY Hsh.
  destruct (iadd_same_shape (grad tX) (np.T (grad tY)) Hsh) as (g & Hg & Hshg & Hc).
  exists g. split; [|done]. simpl. unfold bind, deref. rewrite HY.
  by apply inplace_add_Ok.
Qed.

Lemma call_relu_backward s (X Y : ref) tX tY :
  heap s !! X = Some tX -> heap s !! Y = Some tY ->
  np.shape (data tY) = np.shape (grad tY) ->
  np.shape (grad tX) = np.shape (grad tY) ->
  exists g,
    call (relu_backward X Y) s = Ok tt (with_heap s (<[X := with_grad tX g]> (heap s))) /\
    np.shape g = np.shape (grad tX) /\
    forall i j, i < np.nrows (grad tX) -> j < np.ncols (grad tX) ->
      np.cell g i j =
        (np.cell (grad tX) i j
         + (if (0 <? np.cell (data tY) i j)%float then 1 else 0) * np.cell (grad tY) i j)%float.
Proof.
  intros HX HY Hdg Hsh.
  destruct (ufunc2_same_shape PrimFloat.mul (np.positive_mask (data tY)) (grad tY))
    as (c & Hc & Hshc & Hcc); [done|].
  destruct (iadd_same_shape (grad tX) c) as (g & Hg & Hshg & Hcg).
  { rewrite Hshc. simpl. congruence. }
  exists g. split; [|split; [done|]].
  - simpl. unfold bind, deref. rewrite HY. unfold np.multiply. rewrite Hc. simpl.
    by apply inplace_add_Ok.
  - intros i j Hi Hj. rewrite Hcg by done. f_equal.
    assert (np.shape (grad tX) = np.shape (np.positive_mask (data tY))) as Hsm
      by (simpl; congruence).
    destruct (same_shape_rows _ _ Hsm) as [Hr Hcl].
    rewrite Hcc by lia. done.
Qed.

(** The rule of [B * -1], where [U] is the leaf made of the scalar:
    whatever happens on its first line, the second line cannot add a
    matrix in place into the zero-dimensional gradient of [U]. *)
Lemma mul_backward_scalar_raises s (B U N : ref) tB tU tN m n :
  heap s !! B = Some tB -> heap s !! U = Some tU -> heap s !! N = Some tN ->
  U <> B -> N <> B ->
  np.shape (data tU) = np.Scalar -> np.shape (grad tU) = np.Scalar ->
  np.shape (data tB) = np.Matrix m n -> np.shape (grad tN) = np.Matrix m n ->
  raised (call (mul_backward B U N) s) = Some ValueError.
Proof.
  intros HB HU HN HUB HNB HdU HgU HdB HgN. simpl.
  destruct (multiply_scalar_l (data tU) (grad tN) HdU) as (c1 & Hc1 & Hs1).
  destruct (ufunc2_same_shape PrimFloat.mul (data tB) (grad tN)) as (c2 & Hc2 & Hs2 & _);
    [congruence|].
  unfold bind, deref. rewrite HU, HN, Hc1. simpl.
  destruct (np.iadd (grad tB) c1) as [g|] eqn:Hg.
  - rewrite (inplace_add_Ok s B tB c1 g HB Hg).
    set (s' := with_heap s (<[B := with_grad tB g]> (heap s))).
    assert (heap s' !! B = Some (with_grad tB g)) as HB'
      by (by apply lookup_set_grad_eq).
    assert (heap s' !! N = Some tN) as HN' by (simpl; by rewrite list_lookup_insert_ne).
    assert (heap s' !! U = Some tU) as HU' by (simpl; by rewrite list_lookup_insert_ne).
    rewrite HB', HN'. unfold np.multiply. simpl data. rewrite Hc2. simpl.
    rewrite (inplace_add_Raise s' U tU c2 HU'); [done|].
    eapply iadd_scalar_matrix; [done|]. by rewrite Hs2, HdB.
  - by rewrite (inplace_add_Raise s B tB c1 HB Hg).
Qed.

(** The rule of [A + N] on a seeded output [C]: it raises [ValueError],
    or it returns having written only to the gradients of [A] and [N],
    the latter still of the output's shape. *)
Lemma add_backward_outcome s (A N C : ref) tA tN tC m n :
  heap s !! A = Some tA -> heap s !! N = Some tN -> heap s !! C = Some tC ->
  A <> N -> A <> C -> N <> C ->
  np.shape (grad tC) = np.Matrix m n -> np.shape (grad tN) = np.Matrix m n ->
  raised (call (add_backward A N C) s) = Some ValueError \/
  exists gA gN,
    call (add_backward A N C) s =
      Ok tt (with_heap s (<[N := with_grad tN gN]> (<[A := with_grad tA gA]> (heap s)))) /\
    np.shape gN = np.Matrix m n.
Proof.
  intros HA HN HC HAN HAC HNC HgC HgN. simpl. unfold bind.
  rewrite (row_mean_Ok s C tC m n HC HgC).
  set (col := np.divide_int _ n).
  destruct (np.add (grad tA) col) as [gA|] eqn:HgA.
  - right. rewrite (rebind_add_Ok s A tA col gA HA HgA).
    set (s' := with_heap s (<[A := with_grad tA gA]> (heap s))).
    assert (heap s' !! C = Some tC) as HC' by (simpl; by rewrite list_lookup_insert_ne).
    assert (heap s' !! N = Some tN) as HN' by (simpl; by rewrite list_lookup_insert_ne).
    rewrite (row_mean_Ok s' C tC m n HC' HgC). fold col.
    destruct (add_column (grad tN) col m n HgN eq_refl) as (gN & HgN' & HsN & _).
    rewrite (rebind_add_Ok s' N tN col gN HN' HgN'). by exists gA, gN.
  - left. unfold rebind_add, bind, deref. rewrite HA, HgA. done.
Qed.

(** ** C1: subtraction and its backward pass *)

(** For every pair of tracked operands of one shape (m,n): [A - B] holds
    [A + (B * -1)], and [backward] on it raises [ValueError], or
    [RecursionError] when the traversal exceeds the limit. *)
Lemma sub_backward_general (limit : nat) (s : state) (A B : ref)
    (tA tB : MicroTensor) (m n : nat) :
  heap_wf (heap s) ->
  _trackGrad s = true ->
  heap s !! A = Some tA -> heap s !! B = Some tB ->
  np.shape (data tA) = np.Matrix m n -> np.shape (data tB) = np.Matrix m n ->
  exists C s1 tC,
    __sub__ A (Tensor B) s = Ok C s1 /\ heap s1 !! C = Some tC /\
    np.shape (data tC) = np.Matrix m n /\
    (forall i j, i < m -> j < n ->
       np.cell (data tC) i j
       = (np.cell (data tA) i j + np.cell (data tB) i j * (-1))%float) /\
    raised (backward limit C s1) =
      Some (match traverse limit (heap s1) C [] with
            | Some _ => ValueError
            | None => RecursionError
            end) /\
    (forall d, within d (heap s) A = true -> within d (heap s) B = true ->
       d + 2 <= limit -> raised (backward limit C s1) = Some ValueError).
Proof.
  intros Hwf Hon HA HB HsA HsB.
  pose proof (lookup_lt_Some _ _ _ HA) as HAlt.
  pose proof (lookup_lt_Some _ _ _ HB) as HBlt.
  set (L := length (heap s)) in *.
  set (unk := fresh (np.of_float (-1)) "unk" lambda_None []).
  set (sU := alloc s unk).
  set (dN := np.NdArray (np.Matrix m n)
               (fun i j => (np.bcell (data tB) i j * np.bcell (data unk) i j)%float)).
  set (tN := fresh dN (name tB +:+ "*" +:+ "unk") (mul_backward B L (S L)) [B; L]).
  set (sN := alloc sU tN).
  assert (length (heap sU) = S L) as HlenU by (simpl; rewrite length_app; simpl; lia).
  assert (length (heap sN) = S (S L)) as HlenN.
  { simpl. rewrite !length_app. simpl. fold L. lia. }
  assert (__mul__ B (Raw (np.of_float (-1))) s = Ok (S L) sN) as Hmul.
  { rewrite mul_closed_form.
    change (coerced (Raw (np.of_float (-1))) s) with (L, sU). cbn [fst snd].
    unfold binary_result.
    assert (heap sU !! B = Some tB) as -> by (by apply lookup_alloc_old).
    assert (heap sU !! L = Some unk) as -> by apply lookup_alloc_new.
    unfold np.multiply, np.ufunc2. rewrite HsB.
    cbn [np.broadcast_shapes data fresh unk np.shape np.of_float].
    rewrite HlenU. simpl _trackGrad. by rewrite Hon. }
  destruct (ufunc2_same_shape PrimFloat.add (data tA) dN) as (dC & HdC & HsC & HcC);
    [by rewrite HsA|].
  set (tC := fresh dC ("(" +:+ name tA +:+ "+" +:+ name tN +:+ ")")
               (add_backward A (S L) (S (S L))) [A; S L]).
  set (s3 := alloc sN tC).
  assert (heap sN !! A = Some tA) as HAN by (by apply lookup_alloc_old, lookup_alloc_old).
  assert (heap sN !! S L = Some tN) as HNN by (rewrite <- HlenU; apply lookup_alloc_new).
  assert (__add__ A (Tensor (S L)) sN = Ok (S (S L)) s3) as Hadd.
  { rewrite add_closed_form. simpl coerced. unfold binary_result. simpl fst. simpl snd.
    rewrite HAN, HNN. change (data tN) with dN. unfold np.add at 1.
    rewrite HdC, HlenN.
    simpl _trackGrad. by rewrite Hon. }
  exists (S (S L)), s3, tC. split.
  { unfold __sub__, neg_operand, __neg__, bind. by rewrite Hmul. }
  assert (heap s3 !! S (S L) = Some tC) as HC3 by (rewrite <- HlenN; apply lookup_alloc_new).
  split; [done|]. split; [simpl; congruence|]. split.
  { intros i j Hi Hj. simpl. rewrite HcC by (unfold np.nrows, np.ncols; by rewrite HsA).
    f_equal. simpl.
    rewrite bcell_in_bounds by (unfold np.nrows, np.ncols; by rewrite HsB). done. }
  (* the graph *)
  assert (heap s3 !! A = Some tA) as HA3 by (by apply lookup_alloc_old).
  assert (heap s3 !! B = Some tB) as HB3 by (by do 3 apply lookup_alloc_old).
  assert (heap s3 !! L = Some unk) as HL3.
  { do 2 apply lookup_alloc_old. apply lookup_alloc_new. }
  assert (heap s3 !! S L = Some tN) as HN3 by (by apply lookup_alloc_old).
  assert (length (heap s3) = S (S (S L))) as Hlen3.
  { simpl. rewrite !length_app. simpl. fold L. lia. }
  assert (heap_wf (heap s3)) as Hwf3.
  { apply heap_wf_alloc; [apply heap_wf_alloc; [apply heap_wf_alloc; [done|]|]|].
    - split; [|done]. constructor.
    - fold (heap sU). rewrite HlenU. split; [|done].
      apply Forall_cons. split; [lia|]. apply Forall_singleton. lia.
    - fold (heap sN). rewrite HlenN. split; [|done].
      apply Forall_cons. split; [lia|]. apply Forall_singleton. lia. }
  (* the depth of the graph *)
  assert (forall d, within d (heap s) A = true -> within d (heap s) B = true ->
            d + 2 <= limit -> within limit (heap s3) (S (S L)) = true) as Hdeep.
  { intros d HdA HdB Hle.
    assert (forall x : ref, within d (heap s) x = true -> within d (heap s3) x = true)
      as Hext by (intros x Hx; simpl; by do 3 apply within_app).
    destruct (within_lookup _ _ _ HdA) as [_ Hd].
    apply (within_mono _ (S (S d))); [lia|].
    apply (within_node _ _ _ tC HC3). apply Forall_cons. split.
    { apply (within_mono _ d); [lia|by apply Hext]. }
    apply Forall_singleton. apply (within_node _ _ _ tN HN3).
    apply Forall_cons. split; [by apply Hext|]. apply Forall_singleton.
    destruct d as [|d]; [lia|]. apply (within_node _ _ _ unk HL3). constructor. }
  (* the traversal *)
  destruct (traverse_spec_index (heap s3) Hwf3 (S (S L)) A [])
    as (eA & HeA & HtA & _ & HrA);
    [lia|lia|apply topo_nil|]. change ([] ++ eA) with eA in *.
  destruct (traverse_spec_index (heap s3) Hwf3 (S L) B eA) as (eB & HeB & HtB & _ & HrB);
    [lia|lia|done|].
  pose proof (Forall_reachable_le _ _ _ Hwf3 HrA) as HleA.
  pose proof (Forall_reachable_le _ _ _ Hwf3 HrB) as HleB.
  assert (forall x, x ∈ eA ++ eB -> x < L) as Hsmall.
  { intros x [Hx|Hx]%elem_of_app.
    - apply list_elem_of_In, in_rev, list_elem_of_In in Hx.
      rewrite Forall_forall in HleA. specialize (HleA x Hx). simpl in HleA. lia.
    - apply list_elem_of_In, in_rev, list_elem_of_In in Hx.
      rewrite Forall_forall in HleB. specialize (HleB x Hx). simpl in HleB. lia. }
  assert (traverse (length (heap s3)) (heap s3) (S (S L)) []
          = Some ((((eA ++ eB) ++ [L]) ++ [S L]) ++ [S (S L)])) as Htr.
  { rewrite Hlen3.
    rewrite (traverse_two _ _ _ tC A (S L)) by (done || apply not_elem_of_nil).
    rewrite HeA.
    rewrite (traverse_two _ _ _ tN B L); [|intros Hx|done|done].
    2:{ assert (S L < L) by (apply Hsmall, elem_of_app; by left). lia. }
    rewrite HeB.
    rewrite (traverse_leaf _ _ _ unk); [done|intros Hx|done|done].
    apply Hsmall in Hx. lia. }
  assert (raised (backward limit (S (S L)) s3) =
            Some (match traverse limit (heap s3) (S (S L)) [] with
                  | Some _ => ValueError
                  | None => RecursionError
                  end)) as Hmain; [|split; [exact Hmain|]].
  2:{ intros d HdA HdB Hle. rewrite Hmain.
      destruct (traverse_spec (heap s3) Hwf3 limit (S (S L)) [] (Hdeep d HdA HdB Hle)
                  (topo_nil _)) as (ext & -> & _). done. }
  destruct (traverse limit (heap s3) (S (S L)) []) as [children|] eqn:Hlim;
    [|by rewrite (backward_limit_hit limit s3 _ Hlim)].
  rewrite (traverse_agree _ _ _ _ _ _ _ Hlim Htr) in Hlim. clear children.
  rewrite (backward_with_children limit s3 _ tC _ Hlim HC3).
  rewrite !rev_app_distr. simpl rev. simpl app.
  set (seed := with_grad tC (np.ones (np.shape (data tC)))).
  set (sA := with_heap s3 (<[S (S L) := seed]> (heap s3))).
  assert (heap sA !! S (S L) = Some seed) as HsA_C by (by apply lookup_set_grad_eq).
  assert (heap sA !! A = Some tA) as HsA_A by (simpl; by rewrite list_lookup_insert_ne by lia).
  assert (heap sA !! B = Some tB) as HsA_B by (simpl; by rewrite list_lookup_insert_ne by lia).
  assert (heap sA !! L = Some unk) as HsA_L by (simpl; by rewrite list_lookup_insert_ne by lia).
  assert (heap sA !! S L = Some tN) as HsA_N by (simpl; by rewrite list_lookup_insert_ne by lia).
  set (sA' := mkState (heap sA) (_trackGrad sA) (calls sA ++ [S (S L)])).
  destruct (add_backward_outcome sA' A (S L) (S (S L)) tA tN seed m n)
    as [Hraise|(gA & gN & Hcall & HshN)]; try done; try lia.
  { simpl. congruence. }
  { by apply (raised_call_each_cons _ _ sA seed). }
  rewrite (call_each_cons _ _ sA seed HsA_C). simpl _backward. fold sA'. rewrite Hcall.
  set (sB := with_heap sA' _).
  assert (heap sB !! S L = Some (with_grad tN gN)) as HsB_N.
  { simpl. apply lookup_set_grad_eq. by rewrite list_lookup_insert_ne by lia. }
  assert (heap sB !! L = Some unk) as HsB_L.
  { simpl. by rewrite !list_lookup_insert_ne by lia. }
  assert (exists tB', heap sB !! B = Some tB' /\ data tB' = data tB) as (tB' & HsB_B & HdB').
  { simpl. rewrite list_lookup_insert_ne by lia.
    destruct (decide (A = B)) as [->|Hne].
    - exists (with_grad tA gA). split; [by apply lookup_set_grad_eq|].
      simpl. congruence.
    - exists tB. split; [|done]. by rewrite list_lookup_insert_ne. }
  apply (raised_call_each_cons _ _ sB (with_grad tN gN)); [done|].
  simpl _backward.
  by apply (mul_backward_scalar_raises _ B L (S L) tB' unk (with_grad tN gN) m n);
    try lia; try done; try congruence.
Qed.

(** C1: [A - B] holds [A + (B * -1)], but [backward] on it does not
    complete.  At [A = [[1,2],[3,4]]], [B = [[5,6],[7,8]]], whenever the
    interpreter allows the three nested calls that the traversal needs,
    the rule of [A + (-B)] runs, then the rule of [B * -1] adds into
    [B.grad] and raises [ValueError] on its second line, where the (2,2)
    contribution is added in place to the zero-dimensional gradient of
    the coerced scalar [-1]; the rules of [B], [A] and of the scalar are
    not reached.  The same exception ends the pass for every pair of
    tracked operands of one two-dimensional shape whose graphs are
    within the recursion limit; beyond it the pass raises
    [RecursionError] instead, so that it completes in no case. *)
Theorem sub_backward_raises :
  (data_list (final (sub_scenario initial_state)) 4
     = Some [[-4; -4]; [-4; -4]]%float /\
   _backward <$> heap (final (sub_scenario initial_state)) !! 3
     = Some (mul_backward 1 2 3) /\
   _backward <$> heap (final (sub_scenario initial_state)) !! 4
     = Some (add_backward 0 3 4) /\
   forall limit, 3 <= limit ->
     raised (then_backward limit sub_scenario initial_state) = Some ValueError /\
     calls (final (then_backward limit sub_scenario initial_state)) = [4; 3] /\
     grad_list (final (then_backward limit sub_scenario initial_state)) 0
       = Some [[1; 1]; [1; 1]]%float /\
     grad_list (final (then_backward limit sub_scenario initial_state)) 1
       = Some [[-1; -1]; [-1; -1]]%float /\
     grad_shape (final (then_backward limit sub_scenario initial_state)) 2
       = Some np.Scalar /\
     data_shape (final (then_backward limit sub_scenario initial_state)) 1
       = Some (np.Matrix 2 2)) /\
  (forall (limit : nat) (s : state) (A B : ref) (tA tB : MicroTensor) (m n : nat),
     heap_wf (heap s) ->
     _trackGrad s = true ->
     heap s !! A = Some tA -> heap s !! B = Some tB ->
     np.shape (data tA) = np.Matrix m n -> np.shape (data tB) = np.Matrix m n ->
     exists C s1 tC,
       __sub__ A (Tensor B) s = Ok C s1 /\ heap s1 !! C = Some tC /\
       np.shape (data tC) = np.Matrix m n /\
       (forall i j, i < m -> j < n ->
          np.cell (data tC) i j
          = (np.cell (data tA) i j + np.cell (data tB) i j * (-1))%float) /\
       raised (backward limit C s1) =
         Some (match traverse limit (heap s1) C [] with
               | Some _ => ValueError
               | None => RecursionError
               end) /\
       (forall d, within d (heap s) A = true -> within d (heap s) B = true ->
          d + 2 <= limit -> raised (backward limit C s1) = Some ValueError)).
Proof.
  split; [|exact sub_backward_general].
  split; [vm_compute; reflexivity|]. split; [vm_compute; reflexivity|].
  split; [vm_compute; reflexivity|].
  intros limit Hl.
  rewrite (then_backward_fuel limit 3 sub_scenario initial_state);
    [vm_compute; repeat split
    |apply heap_wfb_correct; vm_compute; reflexivity
    |vm_compute; reflexivity
    |done].
Qed.

(** The general part at the leaves [A] and [B] of the scenario, when
    the interpreter allows 1000 nested calls. *)
Lemma sub_backward_raises_witness :
  exists C s1 tC,
    __sub__ 0 (Tensor 1) (final (two_leaves initial_state)) = Ok C s1 /\
    heap s1 !! C = Some tC /\
    raised (backward 1000 C s1) = Some ValueError.
Proof.
  destruct (proj2 sub_backward_raises 1000 (final (two_leaves initial_state)) 0 1
              (fresh (np.of_rows 2 A22) "A" lambda_None [])
              (fresh (np.of_rows 2 B22) "B" lambda_None []) 2 2)
    as (C & s1 & tC & H1 & H2 & _ & _ & _ & H3); try reflexivity.
  - apply heap_wfb_correct. vm_compute. reflexivity.
  - exists C, s1, tC. split; [done|]. split; [done|].
    apply (H3 1); [reflexivity|reflexivity|lia].
Defined.

(** ** C2: the order of the pass *)

Lemma count_absent (l : list ref) (x : ref) :
  x ∉ l -> length (filter (fun y => y = x) l) = 0.
Proof.
  induction l as [|y l IH]; [done|]. intros Hx.
  apply not_elem_of_cons in Hx as [Hne Hx].
  rewrite filter_cons, decide_False by congruence. by apply IH.
Qed.

Lemma count_NoDup (l : list ref) (x : ref) :
  NoDup l -> x ∈ l -> length (filter (fun y => y = x) l) = 1.
Proof.
  induction 1 as [|y l Hy Hnd IH]; [by intros ?%elem_of_nil|].
  intros [->|Hx]%elem_of_cons; rewrite filter_cons.
  - rewrite decide_True by done. simpl. by rewrite count_absent.
  - rewrite decide_False; [by apply IH|]. intros ->. done.
Qed.

Lemma invocations_app limit s r invoked :
  calls (final (backward limit r s)) = calls s ++ invoked ->
  invocations limit s r = invoked.
Proof. unfold invocations. intros ->. by rewrite drop_app_length. Qed.

(** C2, as the code has it: [backward r] first traverses the graph.
    When the traversal would nest deeper than the interpreter allows,
    [backward] raises [RecursionError] and no rule is invoked.
    Otherwise, and so whenever no chain of recorded parents from [r] is
    longer than the limit, it fixes a schedule, the reverse of the list
    that [traverse] builds from [r], in which every object reachable
    from [r] occurs exactly once and before each of its recorded parents
    (so after every child of it that the traversal reaches).  The rules
    are invoked in that order; a pass in which no rule raises invokes
    the whole schedule, and a rule that raises ends the pass, so that
    what was invoked is a prefix of the schedule. *)
Theorem backward_schedule (limit : nat) (s : state) (r : ref) (t : MicroTensor) :
  heap_wf (heap s) ->
  heap s !! r = Some t ->
  (traverse limit (heap s) r [] = None ->
     backward limit r s = Raise RecursionError s /\ invocations limit s r = []) /\
  (within limit (heap s) r = true -> traverse limit (heap s) r [] <> None) /\
  (traverse limit (heap s) r [] <> None ->
   exists schedule,
     traverse limit (heap s) r [] = Some (rev schedule) /\
     NoDup schedule /\
     (forall x, x ∈ schedule <-> reachable (heap s) r x) /\
     (forall c p, c ∈ schedule -> parent_of (heap s) c p -> before schedule c p) /\
     raised (backward limit r s) <> Some RecursionError /\
     invocations limit s r `prefix_of` schedule /\
     (raised (backward limit r s) = None ->
        invocations limit s r = schedule /\ invoked_exactly_once limit s r)).
Proof.
  intros Hwf Hr. split; [|split].
  { intros Hnone. split; [by apply backward_limit_hit|].
    unfold invocations. rewrite (backward_limit_hit limit s r Hnone). simpl.
    by rewrite drop_all. }
  { intros Hin.
    destruct (traverse_spec (heap s) Hwf limit r [] Hin (topo_nil _)) as (ext & -> & _).
    done. }
  intros Hback.
  destruct (backward_cases limit s r t Hwf Hr)
    as [[Hnone _]|(children & Htr & Htopo & Hin & Hreach & Hbw)]; [done|].
  set (seeded := <[r := with_grad t (np.ones (np.shape (data t)))]> (heap s)) in *.
  assert (forall x, x ∈ rev children <-> reachable (heap s) r x) as Hmem.
  { intros x. rewrite list_elem_of_In, <- in_rev, <- list_elem_of_In. split.
    - rewrite Forall_forall in Hreach. apply Hreach.
    - by apply topo_closed. }
  assert (NoDup (rev children)) as Hnd
    by (apply NoDup_ListNoDup, List.NoDup_rev, NoDup_ListNoDup, Htopo).
  destruct (call_each_spec (fun _ => True) (rev children) (with_heap s seeded))
    as (_ & _ & _ & Hrec & invoked & Hcalls & Hpre & Hall); [done|].
  rewrite <- Hbw in Hrec, Hcalls, Hall. simpl in Hcalls.
  apply invocations_app in Hcalls.
  exists (rev children). split; [by rewrite rev_involutive|].
  split; [done|]. split; [done|]. split.
  { intros c p Hc (tc & Htc & Hp).
    apply list_elem_of_In, in_rev, list_elem_of_In in Hc.
    by eapply topo_before. }
  split; [done|]. split; [by rewrite Hcalls|].
  intros Hnone. rewrite (Hall Hnone) in Hcalls.
  split; [done|].
  intros x Hx. unfold invocations in Hcalls |- *. rewrite Hcalls. apply Hmem in Hx.
  by apply count_NoDup.
Qed.

(** The theorem at [C = A + B] when the interpreter allows 1000 nested
    calls: the pass invokes C, B, A in this order. *)
Lemma backward_schedule_witness :
  exists schedule,
    invocations 1000 (final (add_scenario initial_state)) 2 = schedule /\
    invoked_exactly_once 1000 (final (add_scenario initial_state)) 2.
Proof.
  destruct (backward_schedule 1000 (final (add_scenario initial_state)) 2 _
              add_scenario_wf eq_refl) as (_ & Hin & H).
  destruct (H (Hin eq_refl)) as (schedule & _ & _ & _ & _ & _ & _ & H').
  exists schedule. apply H'. vm_compute. reflexivity.
Defined.

(** C2 as the specification words it fails in two ways.  Without the
    condition that no rule raises, on [C = A - B]: the rule of [-B]
    raises [ValueError], and the rules of A, B and of the coerced
    scalar, all reachable from C, are never invoked.  Without the
    condition on the depth, on a chain of 1000 relus, whose traversal
    nests 1001 calls, when the interpreter allows 1000 (Python's default
    limit of 1000 frames allows fewer): the traversal raises
    [RecursionError], and no rule is invoked, not even the rule of the
    output. *)
Lemma backward_schedule_counterexample :
  (raised (backward 1000 4 (final (sub_scenario initial_state))) = Some ValueError /\
   invocations 1000 (final (sub_scenario initial_state)) 4 = [4; 3] /\
   ~ invoked_exactly_once 1000 (final (sub_scenario initial_state)) 4) /\
  (returned (deep_scenario initial_state) = Some 1000 /\
   raised (backward 1000 1000 (final (deep_scenario initial_state)))
     = Some RecursionError /\
   invocations 1000 (final (deep_scenario initial_state)) 1000 = [] /\
   ~ invoked_exactly_once 1000 (final (deep_scenario initial_state)) 1000).
Proof.
  split.
  - assert (invocations 1000 (final (sub_scenario initial_state)) 4 = [4; 3]) as Hinv
      by (vm_compute; reflexivity).
    split; [vm_compute; reflexivity|]. split; [done|].
    intros H. specialize (H 0). rewrite Hinv in H.
    assert (reachable (heap (final (sub_scenario initial_state))) 4 0) as Hreach.
    { apply rtc_once. eexists. split; [reflexivity|]. simpl. set_solver. }
    specialize (H Hreach). vm_compute in H. discriminate.
  - assert (invocations 1000 (final (deep_scenario initial_state)) 1000 = []) as Hinv
      by (vm_compute; reflexivity).
    split; [vm_compute; reflexivity|]. split; [vm_compute; reflexivity|].
    split; [done|].
    intros H. specialize (H 1000 (rtc_refl _ _)). rewrite Hinv in H. discriminate.
Qed.

(** ** C3: elementwise add *)

(** C3: for tracked operands of one shape (m,n), [A + B] holds the
    elementwise sum and records [A] and [B]; its rule, called when the
    three gradients have that shape, returns and adds to every cell of
    row [i] of [A.grad] and of [B.grad] the sum of row [i] of the output
    gradient divided by [n] (twice when [A] and [B] are one object).  In
    the scenario of the specification, [C.data] is [[6,8],[10,12]] and
    after [C.backward()], under any limit that allows the two nested
    calls of the traversal, the gradients of [C], [A] and [B] all are
    [[1,1],[1,1]]. *)
Theorem add_backward_rule :
  (forall (s : state) (A B : ref) (tA tB : MicroTensor) (m n : nat),
     _trackGrad s = true ->
     heap s !! A = Some tA -> heap s !! B = Some tB ->
     np.shape (data tA) = np.Matrix m n -> np.shape (data tB) = np.Matrix m n ->
     exists C s1 tC,
       __add__ A (Tensor B) s = Ok C s1 /\ heap s1 !! C = Some tC /\
       np.shape (data tC) = np.Matrix m n /\
       (forall i j, i < m -> j < n ->
          np.cell (data tC) i j = (np.cell (data tA) i j + np.cell (data tB) i j)%float) /\
       _prev tC = [A; B] /\ _backward tC = add_backward A B C /\
       forall s2 gA gB gC,
         grad_of s2 A = Some gA -> grad_of s2 B = Some gB -> grad_of s2 C = Some gC ->
         np.shape gA = np.Matrix m n -> np.shape gB = np.Matrix m n ->
         np.shape gC = np.Matrix m n ->
         exists s3 gA' gB',
           call (_backward tC) s2 = Ok tt s3 /\
           grad_of s3 A = Some gA' /\ grad_of s3 B = Some gB' /\
           np.shape gA' = np.Matrix m n /\ np.shape gB' = np.Matrix m n /\
           forall i j, i < m -> j < n ->
             np.cell gA' i j =
               (if decide (A = B)
                then (np.cell gA i j + mean_of_row gC n i + mean_of_row gC n i)%float
                else (np.cell gA i j + mean_of_row gC n i)%float) /\
             np.cell gB' i j =
               (if decide (A = B)
                then (np.cell gB i j + mean_of_row gC n i + mean_of_row gC n i)%float
                else (np.cell gB i j + mean_of_row gC n i)%float)) /\
  (data_list (final (add_scenario initial_state)) 2
     = Some [[6; 8]; [10; 12]]%float /\
   forall limit, 2 <= limit ->
     raised (then_backward limit add_scenario initial_state) = None /\
     grad_list (final (then_backward limit add_scenario initial_state)) 2
       = Some [[1; 1]; [1; 1]]%float /\
     grad_list (final (then_backward limit add_scenario initial_state)) 0
       = Some [[1; 1]; [1; 1]]%float /\
     grad_list (final (then_backward limit add_scenario initial_state)) 1
       = Some [[1; 1]; [1; 1]]%float).
Proof.
  split; [|split; [vm_compute; reflexivity|intros limit Hl; scenario_at 2]].
  intros s A B tA tB m n Hon HA HB HsA HsB.
  rewrite add_closed_form. simpl. unfold binary_result. rewrite HA, HB, Hon.
  destruct (ufunc2_same_shape PrimFloat.add (data tA) (data tB)) as (d & Hd & Hsd & Hcd);
    [congruence|].
  unfold np.add at 1. rewrite Hd.
  eexists _, _, _. split; [done|]. split; [apply lookup_alloc_new|].
  split; [simpl; congruence|]. split.
  { intros i j Hi Hj. simpl. apply Hcd; unfold np.nrows, np.ncols; by rewrite HsA. }
  split; [done|]. split; [done|].
  intros s2 gA gB gC HgA HgB HgC HshA HshB HshC. simpl.
  apply grad_of_Some in HgA as (uA & HuA & <-).
  apply grad_of_Some in HgB as (uB & HuB & <-).
  apply grad_of_Some in HgC as (uC & HuC & <-).
  assert (A <> length (heap s)) as HAC by (apply lookup_lt_Some in HA; lia).
  assert (B <> length (heap s)) as HBC by (apply lookup_lt_Some in HB; lia).
  set (col := np.divide_int
          (np.NdArray (np.Matrix m 1)
             (fun i _ => np.fsum n (fun k => np.cell (grad uC) i k))) n).
  destruct (add_column (grad uA) col m n HshA eq_refl) as (gA1 & HgA1 & HshA1 & HcA1).
  unfold bind.
  rewrite (row_mean_Ok s2 _ uC m n HuC HshC). cbv beta iota. fold col.
  rewrite (rebind_add_Ok s2 A uA col gA1 HuA HgA1). cbv beta iota.
  set (s2' := with_heap s2 (<[A := with_grad uA gA1]> (heap s2))).
  assert (heap s2' !! length (heap s) = Some uC) as HuC'.
  { simpl. by rewrite list_lookup_insert_ne. }
  rewrite (row_mean_Ok s2' _ uC m n HuC' HshC). cbv beta iota. fold col.
  destruct (decide (A = B)) as [->|Hne].
  - assert (uB = uA) as -> by congruence.
    assert (heap s2' !! B = Some (with_grad uA gA1)) as HB'
      by (by apply lookup_set_grad_eq).
    destruct (add_column gA1 col m n HshA1 eq_refl) as (gB1 & HgB1 & HshB1 & HcB1).
    rewrite (rebind_add_Ok s2' B _ col gB1 HB' HgB1).
    exists (with_heap s2' (<[B := with_grad (with_grad uA gA1) gB1]> (heap s2'))), gB1, gB1.
    split; [done|].
    assert (grad_of
              (with_heap s2' (<[B := with_grad (with_grad uA gA1) gB1]> (heap s2'))) B
            = Some gB1) as Hfin.
    { unfold grad_of. simpl heap at 1. by rewrite (lookup_set_grad_eq _ _ _ _ HB'). }
    split; [done|]. split; [done|]. split; [done|]. split; [done|].
    intros i j Hi Hj. rewrite HcB1, HcA1 by done. done.
  - assert (heap s2' !! B = Some uB) as HB'.
    { simpl. by rewrite list_lookup_insert_ne. }
    destruct (add_column (grad uB) col m n HshB eq_refl) as (gB1 & HgB1 & HshB1 & HcB1).
    rewrite (rebind_add_Ok s2' B _ col gB1 HB' HgB1).
    exists (with_heap s2' (<[B := with_grad uB gB1]> (heap s2'))), gA1, gB1.
    split; [done|]. split.
    { unfold grad_of. simpl heap at 1. rewrite list_lookup_insert_ne by done.
      simpl. by rewrite (lookup_set_grad_eq _ _ _ _ HuA). }
    split.
    { unfold grad_of. simpl heap at 1. by rewrite (lookup_set_grad_eq _ _ _ _ HB'). }
    split; [done|]. split; [done|].
    intros i j Hi Hj. rewrite HcB1, HcA1 by done. done.
Qed.

(** The theorem at the leaves [A] and [B] of the scenario. *)
Lemma add_backward_rule_witness :
  exists C s1 tC,
    __add__ 0 (Tensor 1) (final (two_leaves initial_state)) = Ok C s1 /\
    heap s1 !! C = Some tC /\
    np.shape (data tC) = np.Matrix 2 2 /\
    _prev tC = [0; 1] /\ _backward tC = add_backward 0 1 C.
Proof.
  destruct (proj1 add_backward_rule (final (two_leaves initial_state)) 0 1
              (fresh (np.of_rows 2 A22) "A" lambda_None [])
              (fresh (np.of_rows 2 B22) "B" lambda_None []) 2 2
              eq_refl eq_refl eq_refl eq_refl eq_refl)
    as (C & s1 & tC & H1 & H2 & H3 & _ & H4 & H5 & _).
  exists C, s1, tC. done.
Defined.

(** ** C4: matrix product *)

(** C4: for tracked [A] of shape (m,k) and [B] of shape (k,n), [A @ B]
    holds the matrix product and records [A] and [B]; its rule, called
    when the gradients have the shapes of the data, returns, adds
    [G @ B.T] into [A.grad] and [(A.T @ G) / m] into [B.grad], [G] being
    the output gradient (both into the one gradient when [A] and [B] are
    one object).  In the scenario, with [A = [[1,2,3],[4,5,6]]] and
    [B = [[1,2],[3,4],[5,6]]], after [C.backward()], under any limit
    that allows the two nested calls of the traversal, [A.grad] is
    [ones(2,2) @ B.T] and [B.grad] is [(A.T @ ones(2,2)) / 2]. *)
Theorem matmul_backward_rule :
  (forall (s : state) (A B : ref) (tA tB : MicroTensor) (m k n : nat),
     _trackGrad s = true ->
     heap s !! A = Some tA -> heap s !! B = Some tB ->
     np.shape (data tA) = np.Matrix m k -> np.shape (data tB) = np.Matrix k n ->
     exists C s1 tC,
       __matmul__ A (Tensor B) s = Ok C s1 /\ heap s1 !! C = Some tC /\
       np.shape (data tC) = np.Matrix m n /\
       (forall i j,
          np.cell (data tC) i j =
            np.fsum k (fun l => (np.cell (data tA) i l * np.cell (data tB) l j)%float)) /\
       _prev tC = [A; B] /\ _backward tC = matmul_backward A B C /\
       forall s2 gA gB gC,
         skeleton <$> heap s2 = skeleton <$> heap s1 ->
         grad_of s2 A = Some gA -> grad_of s2 B = Some gB -> grad_of s2 C = Some gC ->
         np.shape gA = np.Matrix m k -> np.shape gB = np.Matrix k n ->
         np.shape gC = np.Matrix m n ->
         exists s3 gA' gB',
           call (_backward tC) s2 = Ok tt s3 /\
           grad_of s3 A = Some gA' /\ grad_of s3 B = Some gB' /\
           np.shape gA' = np.Matrix m k /\ np.shape gB' = np.Matrix k n /\
           if decide (A = B)
           then forall i j, i < m -> j < k ->
             np.cell gA' i j =
               (np.cell gA i j + grad_times_BT gC (data tB) n i j
                + AT_times_grad (data tA) gC m i j / np.float_of_nat m)%float
           else
             (forall i j, i < m -> j < k ->
                np.cell gA' i j = (np.cell gA i j + grad_times_BT gC (data tB) n i j)%float) /\
             (forall i j, i < k -> j < n ->
                np.cell gB' i j =
                  (np.cell gB i j
                   + AT_times_grad (data tA) gC m i j / np.float_of_nat m)%float)) /\
  (data_list (final (matmul_scenario initial_state)) 2
     = Some [[22; 28]; [49; 64]]%float /\
   forall limit, 2 <= limit ->
     raised (then_backward limit matmul_scenario initial_state) = None /\
     grad_list (final (then_backward limit matmul_scenario initial_state)) 0
       = np.tolist <$> np.matmul (np.ones (np.Matrix 2 2)) (np.T (np.of_rows 2 B32)) /\
     grad_list (final (then_backward limit matmul_scenario initial_state)) 0
       = Some [[3; 7; 11]; [3; 7; 11]]%float /\
     grad_list (final (then_backward limit matmul_scenario initial_state)) 1
       = (fun p => np.tolist (np.divide_int p 2))
           <$> np.matmul (np.T (np.of_rows 3 A23)) (np.ones (np.Matrix 2 2)) /\
     grad_list (final (then_backward limit matmul_scenario initial_state)) 1
       = Some [[2.5; 2.5]; [3.5; 3.5]; [4.5; 4.5]]%float).
Proof.
  split; [|split; [vm_compute; reflexivity|intros limit Hl; scenario_at 2]].
  intros s A B tA tB m k n Hon HA HB HsA HsB.
  rewrite matmul_closed_form. simpl. unfold binary_result. rewrite HA, HB, Hon.
  unfold np.dot. rewrite HsA, HsB, (matmul_Some _ _ m k n HsA HsB).
  eexists _, _, _. split; [done|]. split; [apply lookup_alloc_new|].
  split; [done|]. split; [done|]. split; [done|]. split; [done|].
  intros s2 gA gB gC Hsk HgA HgB HgC HshA HshB HshC. simpl.
  apply grad_of_Some in HgA as (uA & HuA & <-).
  apply grad_of_Some in HgB as (uB & HuB & <-).
  apply grad_of_Some in HgC as (uC & HuC & <-).
  assert (A <> length (heap s)) as HAC by (apply lookup_lt_Some in HA; lia).
  assert (B <> length (heap s)) as HBC by (apply lookup_lt_Some in HB; lia).
  assert (data uA = data tA) as HdA.
  { destruct (skeleton_lookup _ _ A uA (eq_sym Hsk) HuA) as (t0 & Ht0 & Hs0).
    simpl in Ht0. rewrite (lookup_app_l_Some _ _ _ _ HA) in Ht0.
    injection Ht0 as <-. symmetry. by apply skeleton_data. }
  assert (data uB = data tB) as HdB.
  { destruct (skeleton_lookup _ _ B uB (eq_sym Hsk) HuB) as (t0 & Ht0 & Hs0).
    simpl in Ht0. rewrite (lookup_app_l_Some _ _ _ _ HB) in Ht0.
    injection Ht0 as <-. symmetry. by apply skeleton_data. }
  destruct (shape_T_Matrix (data uB) k n) as [HsT HcT]; [congruence|].
  destruct (shape_T_Matrix (data uA) m k) as [HsT' HcT']; [congruence|].
  unfold bind, deref. rewrite HuC, HuB. cbv beta iota.
  rewrite (matmul_Some _ _ m n k HshC HsT). simpl np_try. unfold ret at 1.
  cbv beta iota.
  set (c1 := np.NdArray (np.Matrix m k) _).
  destruct (iadd_same_shape (grad uA) c1) as (gA1 & HgA1 & HshA1 & HcA1); [done|].
  rewrite (inplace_add_Ok s2 A uA c1 gA1 HuA HgA1). cbv beta iota.
  set (s2' := with_heap s2 (<[A := with_grad uA gA1]> (heap s2))).
  assert (heap s2' !! A = Some (with_grad uA gA1)) as HA'
    by (by apply lookup_set_grad_eq).
  assert (heap s2' !! length (heap s) = Some uC) as HuC'.
  { simpl. by rewrite list_lookup_insert_ne. }
  rewrite HA', HuC'. cbv beta iota. simpl data.
  rewrite (matmul_Some _ _ k m n HsT' HshC). simpl np_try. unfold ret at 1.
  cbv beta iota.
  assert (np.nrows (data uA) = m) as -> by (unfold np.nrows; by rewrite HdA, HsA).
  set (c2 := np.divide_int _ m).
  destruct (decide (A = B)) as [->|Hne].
  - assert (uB = uA) as -> by congruence.
    assert (tB = tA) as -> by congruence.
    assert (np.Matrix m k = np.Matrix k n) as Heq by congruence.
    injection Heq as -> ->.
    destruct (iadd_same_shape gA1 c2) as (gB1 & HgB1 & HshB1 & HcB1);
      [by rewrite HshA1|].
    rewrite (inplace_add_Ok s2' B _ c2 gB1 HA' HgB1).
    eexists _, gB1, gB1. split; [done|].
    assert (grad_of
              (with_heap s2' (<[B := with_grad (with_grad uA gA1) gB1]> (heap s2'))) B
            = Some gB1) as Hfin.
    { unfold grad_of. simpl heap at 1. by rewrite (lookup_set_grad_eq _ _ _ _ HA'). }
    split; [done|]. split; [done|].
    split; [by rewrite HshB1, HshA1|]. split; [by rewrite HshB1, HshA1|].
    intros i j Hi Hj.
    rewrite HcB1 by (unfold np.nrows, np.ncols; rewrite HshA1, HshA; done).
    rewrite HcA1 by (unfold np.nrows, np.ncols; rewrite HshA; done).
    subst c1 c2. simpl. unfold grad_times_BT, AT_times_grad.
    rewrite <- HdA. f_equal; [f_equal|f_equal]; apply fsum_ext; intros l;
      by rewrite ?HcT, ?HcT'.
  - assert (heap s2' !! B = Some uB) as HB'.
    { simpl. by rewrite list_lookup_insert_ne. }
    destruct (iadd_same_shape (grad uB) c2) as (gB1 & HgB1 & HshB1 & HcB1); [done|].
    rewrite (inplace_add_Ok s2' B _ c2 gB1 HB' HgB1).
    eexists _, gA1, gB1. split; [done|]. split.
    { unfold grad_of. simpl heap at 1. rewrite list_lookup_insert_ne by done.
      simpl. by rewrite (lookup_set_grad_eq _ _ _ _ HuA). }
    split.
    { unfold grad_of. simpl heap at 1. by rewrite (lookup_set_grad_eq _ _ _ _ HB'). }
    split; [congruence|]. split; [congruence|]. split.
    + intros i j Hi Hj.
      rewrite HcA1 by (unfold np.nrows, np.ncols; rewrite HshA; done).
      subst c1. simpl. unfold grad_times_BT. rewrite <- HdB. f_equal.
      apply fsum_ext. intros l. by rewrite HcT.
    + intros i j Hi Hj.
      rewrite HcB1 by (unfold np.nrows, np.ncols; rewrite HshB; done).
      subst c2. simpl. unfold AT_times_grad. rewrite <- HdA. do 2 f_equal.
      apply fsum_ext. intros l. by rewrite HcT'.
Qed.

(** The theorem at the leaves [A] (2,3) and [B] (3,2) of the scenario. *)
Lemma matmul_backward_rule_witness :
  exists C s1 tC,
    __matmul__ 0 (Tensor 1)
      (final ((leaf 3 A23 "A";; leaf 2 B32 "B") initial_state)) = Ok C s1 /\
    heap s1 !! C = Some tC /\
    np.shape (data tC) = np.Matrix 2 2 /\
    _prev tC = [0; 1] /\ _backward tC = matmul_backward 0 1 C.
Proof.
  destruct (proj1 matmul_backward_rule
              (final ((leaf 3 A23 "A";; leaf 2 B32 "B") initial_state)) 0 1
              (fresh (np.of_rows 3 A23) "A" lambda_None [])
              (fresh (np.of_rows 2 B32) "B" lambda_None []) 2 3 2
              eq_refl eq_refl eq_refl eq_refl eq_refl)
    as (C & s1 & tC & H1 & H2 & H3 & _ & H4 & H5 & _).
  exists C, s1, tC. done.
Defined.

(** ** C5: the shape of [grad] *)

Lemma keeps_shapes_ret {A} (v : A) : keeps_grad_shapes (ret v).
Proof. done. Qed.

Lemma keeps_shapes_np_try {A} e (o : option A) : keeps_grad_shapes (np_try e o).
Proof. by destruct o. Qed.

Lemma keeps_shapes_deref r : keeps_grad_shapes (deref r).
Proof. intros s i. unfold deref. by destruct (heap s !! r). Qed.

Lemma keeps_shapes_bind {A B} (m : M A) (k : A -> M B) :
  keeps_grad_shapes m -> (forall v, keeps_grad_shapes (k v)) ->
  keeps_grad_shapes (bind m k).
Proof.
  intros Hm Hk s i. unfold bind. specialize (Hm s i).
  destruct (m s) as [v s1|e s1]; [|done]. by rewrite Hk.
Qed.

(** [tgt.grad += c] keeps the shape of [tgt.grad], or raises. *)
Lemma keeps_shapes_inplace_add tgt c : keeps_grad_shapes (inplace_add tgt c).
Proof.
  intros s i. unfold inplace_add, bind, deref.
  destruct (heap s !! tgt) as [t|] eqn:Ht; [|done].
  destruct (np.iadd (grad t) c) as [g|] eqn:Hg; [|done]. simpl.
  unfold set_grad. rewrite Ht. unfold grad_shape, grad_of. simpl.
  destruct (decide (i = tgt)) as [->|Hne].
  - rewrite (lookup_set_grad_eq _ _ _ _ Ht), Ht. simpl. f_equal.
    unfold np.iadd in Hg. destruct (np.add (grad t) c) as [r|]; [|done].
    by case_decide; simplify_eq.
  - by rewrite list_lookup_insert_ne.
Qed.

Ltac shapes_step :=
  first [ apply keeps_shapes_inplace_add
        | apply keeps_shapes_ret
        | apply keeps_shapes_deref
        | apply keeps_shapes_np_try
        | apply keeps_shapes_bind; [|intros ?] ].

(** C5: [__init__] makes [grad] of the shape of [data], and the rules
    that accumulate in place (matrix product, multiply, relu, transpose)
    keep the shape of every gradient.  The rule of add rebinds the
    gradient to a broadcast sum instead: at [C = A + 5], after
    [C.backward()], which completes whenever the interpreter allows the
    two nested calls that the traversal needs, the gradient of the leaf
    made of the scalar [5] has become a (2,1) array while its data is
    zero-dimensional. *)
Theorem add_scalar_grad_shape :
  (forall d nm ps s,
     grad_shape (final (__init__ d nm ps s)) (length (heap s))
     = data_shape (final (__init__ d nm ps s)) (length (heap s))) /\
  (forall c, (forall a b o, c <> add_backward a b o) -> keeps_grad_shapes (call c)) /\
  (forall limit, 2 <= limit ->
   raised (then_backward limit add_scalar_scenario initial_state) = None /\
   _backward <$> heap (final (add_scalar_scenario initial_state)) !! 2
     = Some (add_backward 0 1 2) /\
   data_shape (final (add_scalar_scenario initial_state)) 1 = Some np.Scalar /\
   grad_shape (final (add_scalar_scenario initial_state)) 1 = Some np.Scalar /\
   data_shape (final (then_backward limit add_scalar_scenario initial_state)) 1
     = Some np.Scalar /\
   grad_shape (final (then_backward limit add_scalar_scenario initial_state)) 1
     = Some (np.Matrix 2 1) /\
   grad_list (final (then_backward limit add_scalar_scenario initial_state)) 1
     = Some [[1]; [1]]%float).
Proof.
  split; [|split; [|intros limit Hl; scenario_at 2]].
  - intros d nm ps s. unfold grad_shape, data_shape, grad_of, data_of. simpl.
    by rewrite list_lookup_middle.
  - intros c Hc. destruct c; try (by destruct (Hc self other out));
      unfold call; repeat shapes_step.
Qed.

(** The in-place part at the rule of a transpose, called on the seeded
    graph of [A.T]. *)
Lemma add_scalar_grad_shape_witness :
  grad_shape
    (final (call (T_backward 0 1)
              (final ((let* A := leaf 2 A22 "A" in T A) initial_state)))) 0
  = grad_shape (final ((let* A := leaf 2 A22 "A" in T A) initial_state)) 0.
Proof.
  apply (proj1 (proj2 add_scalar_grad_shape) (T_backward 0 1)).
  intros a b o. discriminate.
Defined.

(** ** C6: the scope of the tracking toggle *)

(** C6: the toggle is enabled at the start; a scope runs its body with
    the toggle set to the given state, hands on what the body returned or
    raised, and on both exits leaves the toggle as it was on entry, so a
    scope nested in another restores the outer scope's state. *)
Theorem track_grad_restores :
  _trackGrad initial_state = true /\
  (forall (st : bool) s, returned (track_grad st read_trackGrad s) = Some st) /\
  (forall A (st : bool) (body : M A) s,
     returned (track_grad st body s) = returned (body (set_trackGrad st s)) /\
     raised (track_grad st body s) = raised (body (set_trackGrad st s)) /\
     heap (final (track_grad st body s)) = heap (final (body (set_trackGrad st s))) /\
     _trackGrad (final (track_grad st body s)) = _trackGrad s) /\
  (forall A B (outer inner : bool) (body : M A) (rest : A -> M B) s,
     track_grad outer (let* v := track_grad inner body in rest v) s
     = track_grad outer
         (fun s1 => match body (set_trackGrad inner s1) with
                    | Ok v s2 => rest v (set_trackGrad outer s2)
                    | Raise e s2 => Raise e (set_trackGrad outer s2)
                    end) s) /\
  (raised (raising_scope initial_state) = Some ValueError /\
   _trackGrad (final (raising_scope initial_state)) = true /\
   _prev <$> heap (final (raising_scope initial_state)) !! 2 = Some []).
Proof.
  split; [done|]. split; [done|]. split; [|split].
  - intros A st body s. unfold track_grad.
    by destruct (body (set_trackGrad st s)).
  - intros A B outer inner body rest s. unfold track_grad, bind. simpl.
    by destruct (body _).
  - vm_compute. done.
Qed.

(** ** C7: operations with tracking disabled *)

Lemma same_data_length s s' : same_data s s' -> length (heap s) = length (heap s').
Proof.
  unfold same_data. intros H.
  rewrite <- (length_fmap data (heap s)), H. apply length_fmap.
Qed.

Lemma same_data_lookup s s' (i : ref) :
  same_data s s' -> data <$> heap s !! i = data <$> heap s' !! i.
Proof. unfold same_data. intros H. by rewrite <- !list_lookup_fmap, H. Qed.

Lemma same_data_alloc s s' t t' :
  same_data s s' -> data t = data t' -> same_data (alloc s t) (alloc s' t').
Proof. unfold same_data. simpl. intros H Hd. rewrite !fmap_app, H. simpl. by rewrite Hd. Qed.

Lemma agree_forward (r r' : result ref) :
  agree r r' -> forward_value r = forward_value r' /\ raised r = raised r'.
Proof.
  destruct r as [v s1|e s1], r' as [v' s1'|e' s1']; simpl; try done.
  - intros [-> H]. split; [|done]. by apply same_data_lookup.
  - by intros ->.
Qed.

Lemma agree_bind {A B} (m : M A) (k : A -> M B) s s' :
  agree (m s) (m s') ->
  (forall v s1 s1', same_data s1 s1' -> agree (k v s1) (k v s1')) ->
  agree (bind m k s) (bind m k s').
Proof.
  unfold bind. intros Hm Hk.
  destruct (m s) as [v s1|e s1], (m s') as [v' s1'|e' s1']; simpl in *; try done.
  destruct Hm as [-> Hm]. by apply Hk.
Qed.

Lemma agree_coerced other s s' :
  same_data s s' ->
  (coerced other s).1 = (coerced other s').1 /\
  same_data (coerced other s).2 (coerced other s').2.
Proof.
  intros H. destruct other as [r|a]; simpl; [done|].
  split; [by apply same_data_length|]. by apply (same_data_alloc s s').
Qed.

Lemma agree_binary f nm rule self o s s' :
  same_data s s' ->
  agree (binary_result f nm rule self o s) (binary_result f nm rule self o s').
Proof.
  intros H. unfold binary_result.
  pose proof (same_data_lookup s s' self H) as Hs.
  pose proof (same_data_lookup s s' o H) as Ho.
  destruct (heap s !! self) as [ts|], (heap s' !! self) as [ts'|]; simplify_eq/=;
    [|done].
  destruct (heap s !! o) as [to_|], (heap s' !! o) as [to'|]; simplify_eq/=;
    [|done].
  rewrite Hs, Ho. destruct (f (data ts') (data to')) as [d|]; simpl; [|done].
  split; [by apply same_data_length|]. by apply same_data_alloc.
Qed.

Lemma agree_unary f nm rule self s s' :
  same_data s s' ->
  agree (unary_result f nm rule self s) (unary_result f nm rule self s').
Proof.
  intros H. unfold unary_result.
  pose proof (same_data_lookup s s' self H) as Hs.
  destruct (heap s !! self) as [ts|], (heap s' !! self) as [ts'|]; simplify_eq/=;
    [|done].
  rewrite Hs. split; [by apply same_data_length|]. by apply same_data_alloc.
Qed.

Lemma agree_add self other s s' :
  same_data s s' -> agree (__add__ self other s) (__add__ self other s').
Proof.
  intros H. rewrite !add_closed_form.
  destruct (agree_coerced other s s' H) as [-> H']. by apply agree_binary.
Qed.

Lemma agree_matmul self other s s' :
  same_data s s' -> agree (__matmul__ self other s) (__matmul__ self other s').
Proof.
  intros H. rewrite !matmul_closed_form.
  destruct (agree_coerced other s s' H) as [-> H']. by apply agree_binary.
Qed.

Lemma agree_mul self other s s' :
  same_data s s' -> agree (__mul__ self other s) (__mul__ self other s').
Proof.
  intros H. rewrite !mul_closed_form.
  destruct (agree_coerced other s s' H) as [-> H']. by apply agree_binary.
Qed.

Lemma agree_coerce other s s' :
  same_data s s' -> agree (coerce other s) (coerce other s').
Proof. intros H. rewrite !coerce_coerced. simpl. by apply agree_coerced. Qed.

Lemma agree_neg_operand other s s' :
  same_data s s' -> agree (neg_operand other s) (neg_operand other s').
Proof.
  intros H. destruct other as [r|a]; simpl; [|done].
  apply agree_bind; [by apply agree_mul|]. intros v s1 s1' H1. done.
Qed.

Lemma agree_perform o s s' :
  same_data s s' -> agree (perform o s) (perform o s').
Proof.
  intros H. destruct o; simpl.
  - by apply agree_add.
  - by apply agree_matmul.
  - by apply agree_mul.
  - rewrite !relu_closed_form. by apply agree_unary.
  - rewrite !T_closed_form. by apply agree_unary.
  - by apply agree_mul.
  - apply agree_bind; [by apply agree_coerce|]. intros; by apply agree_add.
  - apply agree_bind; [by apply agree_neg_operand|]. intros; by apply agree_add.
  - apply agree_bind; [by apply agree_coerce|]. intros.
    apply agree_bind; [by apply agree_mul|]. intros; by apply agree_add.
  - apply agree_bind; [by apply agree_coerce|]. intros; by apply agree_mul.
Qed.

(** With the toggle off, the result has no parents and the no-op rule;
    and no operation changes the toggle. *)
Lemma binary_untracked f nm rule self o s :
  _trackGrad s = false -> untracked (binary_result f nm rule self o s).
Proof.
  intros Hoff. unfold binary_result.
  destruct (heap s !! self) as [ts|]; [|done].
  destruct (heap s !! o) as [to_|]; [|done].
  destruct (f (data ts) (data to_)) as [d|]; [|done].
  rewrite Hoff. simpl. eexists. by rewrite list_lookup_middle.
Qed.

Lemma unary_untracked f nm rule self s :
  _trackGrad s = false -> untracked (unary_result f nm rule self s).
Proof.
  intros Hoff. unfold unary_result.
  destruct (heap s !! self) as [ts|]; [|done].
  rewrite Hoff. simpl. eexists. by rewrite list_lookup_middle.
Qed.

Lemma coerced_toggle other s : _trackGrad (coerced other s).2 = _trackGrad s.
Proof. by destruct other. Qed.

Lemma binary_toggle f nm rule self o s :
  _trackGrad (final (binary_result f nm rule self o s)) = _trackGrad s.
Proof.
  unfold binary_result.
  destruct (heap s !! self) as [ts|]; [|done].
  destruct (heap s !! o) as [to_|]; [|done].
  by destruct (f (data ts) (data to_)) as [d|].
Qed.

Lemma untracked_add self other s :
  _trackGrad s = false -> untracked (__add__ self other s).
Proof. intros H. rewrite add_closed_form. apply binary_untracked. by rewrite coerced_toggle. Qed.

Lemma untracked_matmul self other s :
  _trackGrad s = false -> untracked (__matmul__ self other s).
Proof. intros H. rewrite matmul_closed_form. apply binary_untracked. by rewrite coerced_toggle. Qed.

Lemma untracked_mul self other s :
  _trackGrad s = false -> untracked (__mul__ self other s).
Proof. intros H. rewrite mul_closed_form. apply binary_untracked. by rewrite coerced_toggle. Qed.

Lemma mul_toggle self other s : _trackGrad (final (__mul__ self other s)) = _trackGrad s.
Proof. rewrite mul_closed_form, binary_toggle. apply coerced_toggle. Qed.

Lemma untracked_bind {A} (m : M A) (k : A -> M ref) s :
  _trackGrad s = false ->
  _trackGrad (final (m s)) = _trackGrad s ->
  (forall v s1, _trackGrad s1 = false -> untracked (k v s1)) ->
  untracked (bind m k s).
Proof.
  unfold bind. intros Hoff Hm Hk. destruct (m s) as [v s1|e s1]; [|done].
  apply Hk. simpl in Hm. congruence.
Qed.

Lemma coerce_toggle other s : _trackGrad (final (coerce other s)) = _trackGrad s.
Proof. by destruct other. Qed.

Lemma untracked_perform o s : _trackGrad s = false -> untracked (perform o s).
Proof.
  intros Hoff. destruct o; simpl.
  - by apply untracked_add.
  - by apply untracked_matmul.
  - by apply untracked_mul.
  - rewrite relu_closed_form. by apply unary_untracked.
  - rewrite T_closed_form. by apply unary_untracked.
  - by apply untracked_mul.
  - apply untracked_bind; [done|apply coerce_toggle|]. intros; by apply untracked_add.
  - apply untracked_bind; [done| |intros; by apply untracked_add].
    destruct other as [r|a]; simpl; [|done].
    unfold bind. pose proof (mul_toggle r (Raw (np.of_float (-1))) s) as Ht.
    unfold __neg__. by destruct (__mul__ r _ s).
  - apply untracked_bind; [done|apply coerce_toggle|]. intros v s1 H1.
    apply untracked_bind; [done|apply mul_toggle|]. intros; by apply untracked_add.
  - apply untracked_bind; [done|apply coerce_toggle|]. intros; by apply untracked_mul.
Qed.

(** C7: an operation run while tracking is disabled computes the same
    forward value (or raises the same exception) as with tracking
    enabled, and its result has an empty [_prev] and a [_backward] whose
    call changes nothing at all. *)
Theorem tracking_gate (o : operation) (s : state) :
  _trackGrad s = false ->
  forward_value (perform o s) = forward_value (perform o (set_trackGrad true s)) /\
  raised (perform o s) = raised (perform o (set_trackGrad true s)) /\
  forall out s', perform o s = Ok out s' ->
    exists t, heap s' !! out = Some t /\ is_Some (forward_value (perform o s)) /\
      _prev t = [] /\
      forall s'', call (_backward t) s'' = Ok tt s''.
Proof.
  intros Hoff.
  destruct (agree_forward (perform o s) (perform o (set_trackGrad true s))) as [Hf Hr].
  { by apply agree_perform. }
  split; [done|]. split; [done|].
  intros out s' Hres. pose proof (untracked_perform o s Hoff) as Hun.
  rewrite Hres in *. destruct Hun as (t & Ht & Hprev & Hbw).
  exists t. split; [done|]. split.
  { simpl. unfold data_of. rewrite Ht. by eexists. }
  split; [done|]. intros s''. by rewrite Hbw.
Qed.

(** The theorem at [A - B] computed with tracking disabled. *)
Lemma tracking_gate_witness :
  _trackGrad untracked_leaves = false /\
  np.tolist <$> forward_value (perform (Sub 0 (Tensor 1)) untracked_leaves)
    = Some [[-4; -4]; [-4; -4]]%float /\
  forward_value (perform (Sub 0 (Tensor 1)) untracked_leaves)
    = forward_value (perform (Sub 0 (Tensor 1)) (set_trackGrad true untracked_leaves)).
Proof.
  split; [reflexivity|]. split; [vm_compute; reflexivity|].
  exact (proj1 (tracking_gate (Sub 0 (Tensor 1)) untracked_leaves eq_refl)).
Defined.

(** ** C8: relu *)

(** C8, amended: for a tracked [X] whose gradient is all zeros of the
    shape of its data and below which the graph is at most [d] deep,
    [Y = X.relu()] holds the elementwise maximum of [X.data] and zero,
    and when the interpreter allows more than [d] nested calls, after
    [Y.backward()] the gradient of [Y] is the all-ones seed while
    [X.grad] is zero wherever [Y.data == 0] and equals the gradient of
    [Y] wherever [Y.data > 0]. *)
Theorem relu_masking (limit d : nat) (s : state) (X : ref) (tX : MicroTensor) :
  heap_wf (heap s) ->
  _trackGrad s = true ->
  heap s !! X = Some tX ->
  np.same (grad tX) (np.zeros (np.shape (data tX))) ->
  within d (heap s) X = true ->
  d < limit ->
  exists Y s1 tY,
    relu X s = Ok Y s1 /\ heap s1 !! Y = Some tY /\
    np.shape (data tY) = np.shape (data tX) /\
    (forall i j, np.cell (data tY) i j = maximum (np.cell (data tX) i j) 0) /\
    raised (backward limit Y s1) <> Some RecursionError /\
    grad_of (final (backward limit Y s1)) Y = Some (np.ones (np.shape (data tY))) /\
    grad_shape (final (backward limit Y s1)) X = Some (np.shape (data tX)) /\
    relu_masks (final (backward limit Y s1)) X Y.
Proof.
  intros Hwf Hon HX [Hzs Hzc] Hdeep Hlimit.
  pose proof (lookup_lt_Some _ _ _ HX) as HXlt.
  set (L := length (heap s)) in *.
  set (tY := fresh (np.clip_negative (data tX)) ("ReLU(" +:+ name tX +:+ ")")
               (relu_backward X L) [X]).
  set (s1 := alloc s tY).
  assert (relu X s = Ok L s1) as Hrelu.
  { rewrite relu_closed_form. unfold unary_result. by rewrite HX, Hon. }
  assert (heap s1 !! L = Some tY) as HL1 by apply lookup_alloc_new.
  assert (heap s1 !! X = Some tX) as HX1 by (by apply lookup_alloc_old).
  assert (heap_wf (heap s1)) as Hwf1.
  { apply heap_wf_alloc; [done|]. split; [|done]. by apply Forall_singleton. }
  assert (length (heap s1) = S L) as Hlen1.
  { simpl. rewrite length_app. simpl. lia. }
  destruct (traverse_spec_index (heap s1) Hwf1 L X []) as (ext & Hext & _ & _ & Hreach);
    [done|lia|apply topo_nil|]. change ([] ++ ext) with ext in Hext.
  pose proof (Forall_reachable_le _ _ _ Hwf1 Hreach) as Hle.
  assert (traverse (length (heap s1)) (heap s1) L [] = Some (ext ++ [L])) as Htr.
  { rewrite Hlen1, (traverse_single _ _ _ tY X HL1 eq_refl). by rewrite Hext. }
  assert (within limit (heap s1) L = true) as Hin.
  { apply (within_mono _ (S d)); [lia|]. apply (within_node _ _ _ tY HL1).
    apply Forall_singleton. simpl. by apply within_app. }
  apply (traverse_within _ limit _ _ _ Hwf1 Hin) in Htr.
  exists L, s1, tY. split; [done|]. split; [done|]. split; [done|]. split.
  { intros i j. simpl. apply clip_is_maximum. }
  split.
  { apply (seed_kept limit s1 L tY Hwf1 HL1). by rewrite Htr. }
  rewrite (backward_with_children limit s1 L tY _ Htr HL1).
  rewrite rev_app_distr. simpl rev. simpl app.
  set (seed := with_grad tY (np.ones (np.shape (data tY)))).
  set (sA := with_heap s1 (<[L := seed]> (heap s1))).
  assert (heap sA !! L = Some seed) as HA_L by (by apply lookup_set_grad_eq).
  rewrite (call_each_cons _ _ sA seed HA_L).
  set (sA' := mkState (heap sA) (_trackGrad sA) (calls sA ++ [L])).
  assert (heap sA' !! X = Some tX) as HA_X.
  { simpl. by rewrite list_lookup_insert_ne by lia. }
  destruct (call_relu_backward sA' X L tX seed HA_X HA_L) as (gX & Hcall & HshX & HcX);
    [done|by rewrite Hzs|].
  simpl _backward. rewrite Hcall.
  set (sB := with_heap sA' (<[X := with_grad tX gX]> (heap sA'))).
  assert (heap sB !! X = Some (with_grad tX gX)) as HB_X by (by apply lookup_set_grad_eq).
  assert (heap sB !! L = Some seed) as HB_L.
  { simpl. by rewrite list_lookup_insert_ne by lia. }
  assert (heap_wf (heap sB)) as HwfB.
  { simpl. repeat apply heap_wf_set_grad; done. }
  assert (Forall (fun c => c <= L) (rev ext)) as Hle'.
  { eapply Forall_impl; [exact Hle|]. simpl. lia. }
  pose proof (call_each_below sB (rev ext) X HwfB Hle) as HfX.
  pose proof (call_each_below sB (rev ext) L HwfB Hle') as HfL.
  split; [by unfold grad_of; rewrite HfL, HB_L|].
  split; [unfold grad_shape, grad_of; rewrite HfX, HB_X; simpl; by rewrite HshX, Hzs|].
  intros i j y gx gy. unfold data_item, grad_item, data_of, grad_of.
  rewrite HfX, HfL, HB_X, HB_L. simpl.
  intros (Hi & Hj & <-)%item_Some (Hi' & Hj' & <-)%item_Some (_ & _ & <-)%item_Some.
  assert (np.nrows gX = np.nrows (grad tX) /\ np.ncols gX = np.ncols (grad tX))
    as [Hr Hc] by (by apply same_shape_rows).
  rewrite HcX by lia. rewrite Hzc by lia. simpl.
  split.
  - intros Hy. by rewrite (eqb_zero_not_positive _ Hy).
  - by intros ->.
Qed.

(** The theorem at the fresh leaf [X = [[-1,2]]], when the interpreter
    allows 1000 nested calls. *)
Lemma relu_masking_witness :
  exists Y s1 tY,
    relu 0 (final (leaf 2 [[-1; 2]]%float "X" initial_state)) = Ok Y s1 /\
    heap s1 !! Y = Some tY /\
    np.shape (data tY) = np.Matrix 1 2 /\
    grad_shape (final (backward 1000 Y s1)) 0 = Some (np.Matrix 1 2) /\
    relu_masks (final (backward 1000 Y s1)) 0 Y.
Proof.
  destruct (relu_masking 1000 1 (final (leaf 2 [[-1; 2]]%float "X" initial_state)) 0
              (fresh (np.of_rows 2 [[-1; 2]]%float) "X" lambda_None []))
    as (Y & s1 & tY & H1 & H2 & H3 & _ & _ & _ & H4 & H5).
  - apply heap_wfb_correct. vm_compute. reflexivity.
  - reflexivity.
  - reflexivity.
  - apply same_refl.
  - reflexivity.
  - lia.
  - exists Y, s1, tY. done.
Defined.

(** C8 without the condition on [X.grad] fails: when [X] already
    carries the gradient [[0,1]] of an earlier pass, a second
    [X.relu().backward()] leaves [X.grad = [[0,2]]], which at the
    position where [Y.data = 2 > 0] is not the gradient 1 of [Y].  And
    without the condition on the depth there is no incoming gradient:
    for [Y] the last of a chain of 1000 relus, when the interpreter
    allows 1000 nested calls (Python's default limit of 1000 frames
    allows fewer), [Y.backward()] raises [RecursionError] and leaves
    [Y.grad] zero where the seed would be 1. *)
Lemma relu_masking_counterexample :
  (data_list (final (then_backward 1000 (relu_again_scenario 1000) initial_state)) 2
     = Some [[0; 2]]%float /\
   grad_list (final (then_backward 1000 (relu_again_scenario 1000) initial_state)) 2
     = Some [[1; 1]]%float /\
   grad_list (final (then_backward 1000 (relu_again_scenario 1000) initial_state)) 0
     = Some [[0; 2]]%float /\
   ~ relu_masks (final (then_backward 1000 (relu_again_scenario 1000) initial_state)) 0 2) /\
  (raised (then_backward 1000 deep_scenario initial_state) = Some RecursionError /\
   _backward <$> heap (final (deep_scenario initial_state)) !! 1000
     = Some (relu_backward 999 1000) /\
   grad_list (final (then_backward 1000 deep_scenario initial_state)) 1000
     = Some [[0]]%float).
Proof.
  split; [|vm_compute; repeat split].
  split; [vm_compute; reflexivity|]. split; [vm_compute; reflexivity|].
  split; [vm_compute; reflexivity|].
  intros H.
  destruct (H 0 1 2%float 2%float 1%float) as [_ Hpos];
    [vm_compute; reflexivity..|].
  specialize (Hpos eq_refl).
  apply (f_equal (fun x => (x <? 2)%float)) in Hpos. vm_compute in Hpos. discriminate.
Qed.

(** ** C9: transpose *)

(** C9, amended: for a tracked [X] whose gradient is all zeros of the
    shape of its data and below which the graph is at most [d] deep,
    when the interpreter allows the [d + 2] nested calls that the
    traversal from [X.T.T] needs, [backward] on [X.T.T] and [backward]
    on [X] itself leave the same array in [X.grad], namely all ones. *)
Theorem transpose_round_trip (limit d : nat) (s : state) (X : ref) (tX : MicroTensor) :
  heap_wf (heap s) ->
  _trackGrad s = true ->
  heap s !! X = Some tX ->
  np.same (grad tX) (np.zeros (np.shape (data tX))) ->
  within d (heap s) X = true ->
  d + 2 <= limit ->
  exists XT s1 XTT s2 g1 g2,
    T X s = Ok XT s1 /\ T XT s1 = Ok XTT s2 /\
    grad_of (final (backward limit XTT s2)) X = Some g1 /\
    grad_of (final (backward limit X s)) X = Some g2 /\
    np.same g1 g2 /\ g2 = np.ones (np.shape (data tX)).
Proof.
  intros Hwf Hon HX [Hzs Hzc] Hdeep Hlimit.
  pose proof (lookup_lt_Some _ _ _ HX) as HXlt.
  set (L := length (heap s)) in *.
  set (tXT := fresh (np.T (data tX)) (name tX +:+ ".T") (T_backward X L) [X]).
  set (tXTT := fresh (np.T (data tXT)) (name tXT +:+ ".T") (T_backward L (S L)) [L]).
  set (s1 := alloc s tXT). set (s2 := alloc s1 tXTT).
  assert (length (heap s1) = S L) as Hlen1.
  { simpl. rewrite length_app. simpl. lia. }
  assert (T X s = Ok L s1) as HT1.
  { rewrite T_closed_form. unfold unary_result. by rewrite HX, Hon. }
  assert (heap s1 !! L = Some tXT) as HL1 by apply lookup_alloc_new.
  assert (T L s1 = Ok (S L) s2) as HT2.
  { rewrite T_closed_form. unfold unary_result. rewrite HL1, Hlen1. simpl _trackGrad.
    by rewrite Hon. }
  assert (heap s2 !! S L = Some tXTT) as HSL2.
  { rewrite <- Hlen1. apply lookup_alloc_new. }
  assert (heap s2 !! L = Some tXT) as HL2 by (by apply lookup_alloc_old).
  assert (heap s2 !! X = Some tX) as HX2 by (by apply lookup_alloc_old, lookup_alloc_old).
  assert (heap_wf (heap s2)) as Hwf2.
  { apply heap_wf_alloc; [apply heap_wf_alloc; [done|]|].
    - split; [|done]. apply Forall_singleton. done.
    - fold (heap s1). rewrite Hlen1. split; [|done]. apply Forall_singleton. lia. }
  assert (length (heap s2) = S (S L)) as Hlen2.
  { simpl. rewrite !length_app. simpl. fold L. lia. }
  destruct (traverse_spec_index (heap s2) Hwf2 L X []) as (ext & Hext & _ & _ & Hreach);
    [done|lia|apply topo_nil|]. change ([] ++ ext) with ext in Hext.
  pose proof (Forall_reachable_le _ _ _ Hwf2 Hreach) as Hle.
  assert (within limit (heap s2) (S L) = true) as Hin.
  { apply (within_mono _ (S (S d))); [lia|]. apply (within_node _ _ _ tXTT HSL2).
    apply Forall_singleton. apply (within_node _ _ _ tXT HL2).
    apply Forall_singleton. simpl. by do 2 apply within_app. }
  exists L, s1, (S L), s2.
  (* the pass from X.T.T *)
  assert (traverse (length (heap s2)) (heap s2) (S L) [] = Some ((ext ++ [L]) ++ [S L]))
    as Htr.
  { rewrite Hlen2.
    rewrite (traverse_single _ _ _ tXTT L HSL2 eq_refl).
    rewrite (traverse_single _ _ _ tXT X HL2 eq_refl).
    by rewrite Hext. }
  apply (traverse_within _ limit _ _ _ Hwf2 Hin) in Htr.
  rewrite (backward_with_children limit s2 (S L) tXTT _ Htr HSL2).
  rewrite !rev_app_distr. simpl rev. simpl app.
  set (seed := with_grad tXTT (np.ones (np.shape (data tXTT)))).
  set (sA := with_heap s2 (<[S L := seed]> (heap s2))).
  assert (heap sA !! S L = Some seed) as HA_SL by (by apply lookup_set_grad_eq).
  rewrite (call_each_cons _ _ sA seed HA_SL).
  set (sA' := mkState (heap sA) (_trackGrad sA) (calls sA ++ [S L])).
  assert (heap sA' !! L = Some tXT) as HA_L.
  { simpl. by rewrite list_lookup_insert_ne by lia. }
  destruct (call_T_backward sA' L (S L) tXT seed HA_L HA_SL) as (gXT & Hcall1 & HshXT & HcXT).
  { simpl. rewrite shape_T_ones. by rewrite shape_T_T. }
  simpl _backward. rewrite Hcall1.
  set (sB := with_heap sA' (<[L := with_grad tXT gXT]> (heap sA'))).
  assert (heap sB !! L = Some (with_grad tXT gXT)) as HB_L by (by apply lookup_set_grad_eq).
  rewrite (call_each_cons _ _ sB _ HB_L).
  set (sB' := mkState (heap sB) (_trackGrad sB) (calls sB ++ [L])).
  assert (heap sB' !! X = Some tX) as HB_X.
  { simpl. rewrite !list_lookup_insert_ne by lia. done. }
  destruct (call_T_backward sB' X L tX (with_grad tXT gXT) HB_X HB_L)
    as (gX & Hcall2 & HshX & HcX).
  { simpl. rewrite Hzs. simpl. rewrite (shape_T gXT (np.T (data tX))) by done.
    by rewrite shape_T_T. }
  simpl _backward. rewrite Hcall2.
  set (sC := with_heap sB' (<[X := with_grad tX gX]> (heap sB'))).
  assert (heap sC !! X = Some (with_grad tX gX)) as HC_X by (by apply lookup_set_grad_eq).
  assert (heap_wf (heap sC)) as HwfC.
  { simpl. repeat apply heap_wf_set_grad; done. }
  exists gX, (np.ones (np.shape (data tX))).
  split; [done|]. split; [done|]. split.
  { unfold grad_of. rewrite (call_each_below sC (rev ext) X HwfC Hle), HC_X. done. }
  split.
  { destruct (seed_kept limit s X tX Hwf HX) as (_ & ->); [|done].
    destruct (traverse_spec (heap s) Hwf limit X []) as (e & -> & _);
      [apply (within_mono _ d); [lia|done]|apply topo_nil|done]. }
  split; [|done]. split; [by rewrite HshX, Hzs|].
  assert (np.nrows gX = np.nrows (grad tX) /\ np.ncols gX = np.ncols (grad tX))
    as [Hr Hc] by (by apply same_shape_rows).
  intros i j Hi Hj. rewrite HcX by lia. rewrite Hzc by lia. simpl.
  assert (np.cell (np.T gXT) i j = 1%float) as ->; [|done].
  assert (np.shape gXT = np.shape (np.T (data tX))) as HshXT' by done.
  destruct (same_shape_rows _ _ HshXT') as [HrXT HcXT'].
  destruct (rows_T (data tX)) as [HrT HcT].
  destruct (rows_T gXT) as [HrT' HcT'].
  assert (np.shape (grad tX) = np.shape (data tX)) as Hsd by (by rewrite Hzs).
  destruct (same_shape_rows _ _ Hsd) as [Hrd Hcd].
  apply T_all_ones; [|lia..].
  intros i' j' Hi' Hj'. rewrite HcXT.
  - unfold seed. simpl. by rewrite cell_T_ones.
  - change (i' < np.nrows (np.T (data tX))). lia.
  - change (j' < np.ncols (np.T (data tX))). lia.
Qed.

(** The theorem at the fresh leaf [A = [[1,2],[3,4]]], when the
    interpreter allows 1000 nested calls. *)
Lemma transpose_round_trip_witness :
  exists XT s1 XTT s2 g1 g2,
    T 0 (final (leaf 2 A22 "A" initial_state)) = Ok XT s1 /\ T XT s1 = Ok XTT s2 /\
    grad_of (final (backward 1000 XTT s2)) 0 = Some g1 /\
    grad_of (final (backward 1000 0 (final (leaf 2 A22 "A" initial_state)))) 0 = Some g2 /\
    np.same g1 g2 /\ g2 = np.ones (np.Matrix 2 2).
Proof.
  apply (transpose_round_trip 1000 1 (final (leaf 2 A22 "A" initial_state)) 0
           (fresh (np.of_rows 2 A22) "A" lambda_None [])).
  - apply heap_wfb_correct. vm_compute. reflexivity.
  - reflexivity.
  - reflexivity.
  - apply same_refl.
  - reflexivity.
  - lia.
Defined.

(** C9 without the condition on the depth fails for an [X] just under
    the limit: when the interpreter allows 1000 nested calls and [X] is
    the last of a chain of 998 relus, whose gradient is zero and whose
    traversal nests 999 calls, [X.backward()] returns and leaves
    [X.grad] all ones, while the traversal from [X.T.T] nests two calls
    deeper, so that [X.T.T.backward()] raises [RecursionError] and
    leaves [X.grad] zero. *)
Lemma transpose_round_trip_counterexample :
  returned (below_limit_scenario initial_state) = Some 998 /\
  grad_list (final (below_limit_scenario initial_state)) 998 = Some [[0]]%float /\
  raised (backward 1000 998 (final (below_limit_scenario initial_state))) = None /\
  grad_list (final (backward 1000 998 (final (below_limit_scenario initial_state)))) 998
    = Some [[1]]%float /\
  returned (double_transpose 998 (final (below_limit_scenario initial_state)))
    = Some 1000 /\
  raised (backward 1000 1000
            (final (double_transpose 998 (final (below_limit_scenario initial_state)))))
    = Some RecursionError /\
  grad_list (final (backward 1000 1000
               (final (double_transpose 998 (final (below_limit_scenario initial_state))))))
      998
    = Some [[0]]%float.
Proof. vm_compute. repeat split. Qed.

(** ** C10: the seed *)

(** C10, amended: a call of [backward] on [r] whose traversal exceeds
    the interpreter's recursion limit raises [RecursionError] and writes
    nothing, not even the seed.  Every other call, and so every call
    when no chain of recorded parents from [r] is longer than the limit,
    leaves [r.grad] equal to [np.ones(r.data.shape)], whatever [r.grad]
    was before and whether or not a rule raises later in the pass; and
    when [r] has no recorded parents such a call returns and no other
    object changes. *)
Theorem backward_seed_overwrites (limit : nat) (s : state) (r : ref) (t : MicroTensor) :
  heap_wf (heap s) ->
  heap s !! r = Some t ->
  (traverse limit (heap s) r [] = None ->
     backward limit r s = Raise RecursionError s) /\
  (within limit (heap s) r = true -> traverse limit (heap s) r [] <> None) /\
  (traverse limit (heap s) r [] <> None ->
     raised (backward limit r s) <> Some RecursionError /\
     grad_of (final (backward limit r s)) r = Some (np.ones (np.shape (data t))) /\
     (_prev t = [] ->
        raised (backward limit r s) = None /\
        forall i, i <> r -> heap (final (backward limit r s)) !! i = heap s !! i)).
Proof.
  intros Hwf Hr. split; [apply backward_limit_hit|]. split.
  { intros Hin.
    destruct (traverse_spec (heap s) Hwf limit r [] Hin (topo_nil _)) as (ext & -> & _).
    done. }
  intros Hback.
  destruct (seed_kept limit s r t Hwf Hr Hback) as [Hrec Hseeded].
  split; [done|]. split; [done|]. intros Hleaf.
  assert (traverse limit (heap s) r [] = Some [r]) as Htr.
  { destruct limit as [|n]; [done|].
    by rewrite (traverse_leaf _ _ _ t) by (done || apply not_elem_of_nil). }
  rewrite (backward_with_children limit s r t [r] Htr Hr). simpl rev.
  set (seeded := <[r := with_grad t (np.ones (np.shape (data t)))]> (heap s)).
  assert (seeded !! r = Some (with_grad t (np.ones (np.shape (data t))))) as Hseed
    by (by apply lookup_set_grad_eq).
  rewrite (call_each_cons r [] (with_heap s seeded) _ Hseed). simpl.
  destruct (Hwf r t Hr) as [_ Hfit].
  rewrite (closure_of_leaf r t Hfit Hleaf). simpl.
  split; [done|]. intros i Hi. by apply list_lookup_insert_ne.
Qed.

(** The theorem at [C = A + B] of the add scenario, and at the leaf
    [A], when the interpreter allows 1000 nested calls. *)
Lemma backward_seed_overwrites_witness :
  grad_list (final (backward 1000 2 (final (add_scenario initial_state)))) 2
    = Some [[1; 1]; [1; 1]]%float /\
  forall i, i <> 0 ->
    heap (final (backward 1000 0 (final (add_scenario initial_state)))) !! i
      = heap (final (add_scenario initial_state)) !! i.
Proof.
  split.
  - unfold grad_list.
    destruct (backward_seed_overwrites 1000 (final (add_scenario initial_state)) 2 _
                add_scenario_wf eq_refl) as (_ & Hin & H).
    destruct (H (Hin eq_refl)) as (_ & -> & _).
    reflexivity.
  - destruct (backward_seed_overwrites 1000 (final (add_scenario initial_state)) 0 _
                add_scenario_wf eq_refl) as (_ & Hin & H).
    destruct (H (Hin eq_refl)) as (_ & _ & H').
    destruct (H' eq_refl) as [_ H'']. exact H''.
Defined.

(** C10 as the specification words it, for every node and every call,
    fails on a deep graph: for [Y] the last of a chain of 1000 relus,
    when the interpreter allows 1000 nested calls (Python's default
    limit of 1000 frames allows fewer), [Y.backward()] raises
    [RecursionError] in the traversal, and [Y.grad] still is the zero
    that [__init__] wrote, not the all-ones seed. *)
Lemma backward_seed_overwrites_counterexample :
  returned (deep_scenario initial_state) = Some 1000 /\
  data_shape (final (deep_scenario initial_state)) 1000 = Some (np.Matrix 1 1) /\
  raised (backward 1000 1000 (final (deep_scenario initial_state)))
    = Some RecursionError /\
  grad_list (final (backward 1000 1000 (final (deep_scenario initial_state)))) 1000
    = Some [[0]]%float /\
  grad_list (final (backward 1000 1000 (final (deep_scenario initial_state)))) 1000
    <> np.tolist <$> Some (np.ones (np.Matrix 1 1)).
Proof. vm_compute. repeat split. discriminate. Qed.

(** * Further properties of engine.py and nn.py *)

(** ** The operations never touch an existing object *)



















(** ** What a backward pass leaves alone *)




(** ** Exceptions of a backward pass *)













(** ** Elementwise multiply (lines 47-56) *)



(** ** A Python number as an operand of multiply and of the matrix product *)













(** ** Shapes that the forward operations accept *)






(** ** Forward round trips *)






(** ** [zero_grad] (nn.py, lines 6-8) *)




(** ** Graphs on which a backward pass completes *)




















(** ** Layers (nn.py, lines 21-24) *)


















(** ** Sequential (nn.py, lines 40-43) *)











(** ** Building a network (nn.py, lines 15-19 and 34-38) *)
















(** ** A network from its constructors to its gradients *)






